(** * StablePay merchant dashboard: the transaction service

    A shallow embedding of [dashboard/lib/transaction-service.ts] and the
    properties of its multi-network event aggregation: chunked log scans
    (forward and reverse), log decoding, block-timestamp resolution and the
    cross-network merge.

    Conventions of the embedding
    - a JavaScript [bigint] is a [Z]; bigints do not wrap around;
    - a JavaScript string is a [string] (the RPC payloads are ASCII);
    - an awaited call that may reject is a value of [result]: [Ok v] when the
      promise resolves to [v], [Throw msg] when it rejects;
    - a [Date] is its time value, epoch milliseconds, or the Invalid Date;
    - the viem client is a record of oracles, one per RPC method. *)

From Stdlib Require Import ZArith Lia Ascii String.
From Equations Require Import Equations.
From stdpp Require Import base option list gmap strings sorting.

#[local] Open Scope string_scope.
#[local] Open Scope list_scope.
#[local] Open Scope Z_scope.

Set Default Proof Using "Type".

(** ** Rejected promises and thrown exceptions *)

Inductive result (A : Type) : Type :=
| Ok (a : A)
| Throw (msg : string).
Arguments Ok {A} a.
Arguments Throw {A} msg.

Definition bind {A B} (r : result A) (k : A -> result B) : result B :=
  match r with
  | Ok a => k a
  | Throw e => Throw e
  end.

Declare Scope js_scope.
Delimit Scope js_scope with js.
Notation "'let*' x ':=' r 'in' k" := (bind r (fun x => k))
  (at level 10, x name, r at level 100, k at level 200) : js_scope.
#[local] Open Scope js_scope.

(** [try { body } catch (err) { handler }] *)
Definition try_catch {A} (body : result A) (handler : string -> result A)
  : result A :=
  match body with
  | Ok a => Ok a
  | Throw err => handler err
  end.

(** [Array.prototype.map] with a callback that may throw: the first exception
    aborts the traversal. *)
Fixpoint mapM {A B} (f : A -> result B) (l : list A) : result (list B) :=
  match l with
  | [] => Ok []
  | x :: xs =>
      let* y := f x in
      let* ys := mapM f xs in
      Ok (y :: ys)
  end.

(** ** JavaScript array and string primitives *)

Module JS.

(** The relative index of [slice]: a negative index counts from the end, and
    the result is clamped to [0 .. len]. *)
Definition rel_index (len : nat) (k : Z) : nat :=
  if k <? 0 then Z.to_nat (Z.max (Z.of_nat len + k) 0)
  else Nat.min (Z.to_nat k) len.

(** [arr.slice(start, end)] *)
Definition slice {A} (start stop : Z) (l : list A) : list A :=
  let from := rel_index (length l) start in
  let to := rel_index (length l) stop in
  take (to - from) (drop from l).

(** [arr.slice(start)] *)
Definition slice_from {A} (start : Z) (l : list A) : list A :=
  drop (rel_index (length l) start) l.

Definition chars (s : string) : list ascii := list_ascii_of_string s.
Definition str (l : list ascii) : string := string_of_list_ascii l.

(** [s.slice(start, end)] and [s.slice(start)] on strings *)
Definition str_slice (start stop : Z) (s : string) : string :=
  str (slice start stop (chars s)).
Definition str_slice_from (start : Z) (s : string) : string :=
  str (slice_from start (chars s)).

(** [s.replace(pat, by)] with a string pattern: only the first occurrence is
    replaced. *)
Fixpoint replace (pat by_ s : string) : string :=
  if String.prefix pat s
  then (by_ ++ str_slice_from (Z.of_nat (String.length pat)) s)%string
  else match s with
       | EmptyString => EmptyString
       | String c s' => String c (replace pat by_ s')
       end.

(** The suffix of [l] that starts at the first element not satisfying [p]. *)
Fixpoint drop_while {A} (p : A -> bool) (l : list A) : list A :=
  match l with
  | [] => []
  | x :: l' => if p x then drop_while p l' else l
  end.

(** [arr.sort(cmp)]: the sort is stable, and only the sign of the
    comparator's result is used, a result of NaN counting as 0. For a
    comparator that orders the elements consistently every stable sort
    returns the same array; it is modelled by insertion. Where the comparator
    is not consistent the order is left to the engine, and nothing is
    derived from the order of the model there except on an input on which
    the engine is traced. *)
Fixpoint sort_insert {A} (cmp : A -> A -> Z) (x : A) (l : list A) : list A :=
  match l with
  | [] => [x]
  | y :: l' => if cmp x y <=? 0 then x :: l else y :: sort_insert cmp x l'
  end.
Definition sort {A} (cmp : A -> A -> Z) (l : list A) : list A :=
  foldr (sort_insert cmp) [] l.

(** [[...new Set(arr)]]: the distinct elements, in order of first
    occurrence. *)
Definition unique {A} `{EqDecision A} (l : list A) : list A :=
  foldl (fun acc x => if decide (x ∈ acc) then acc else acc ++ [x]) [] l.

(** [s.startsWith(c)] for a one-character [c]. *)
Definition startsWith (c : ascii) (l : list ascii) : bool :=
  match l with
  | [] => false
  | x :: _ => if ascii_dec x c then true else false
  end.

(** [s.padStart(n, c)] with a one-character filler. *)
Definition padStart (n : nat) (c : ascii) (l : list ascii) : list ascii :=
  replicate (n - length l) c ++ l.

(** *** Numerals *)

(** The value of a digit character in the given radix, [None] when the
    character is not a digit of that radix. Letters count in either case. *)
Definition digit_value (radix : Z) (c : ascii) : option Z :=
  let n := Z.of_nat (nat_of_ascii c) in
  let v := if (48 <=? n) && (n <=? 57) then Some (n - 48)
           else if (97 <=? n) && (n <=? 122) then Some (n - 87)
           else if (65 <=? n) && (n <=? 90) then Some (n - 55)
           else None in
  match v with
  | Some d => if d <? radix then Some d else None
  | None => None
  end.

(** Positional value of a digit string, most significant digit first;
    [None] when some character is not a digit. *)
Fixpoint digits_value_acc (radix : Z) (acc : Z) (l : list ascii) : option Z :=
  match l with
  | [] => Some acc
  | c :: l' =>
      match digit_value radix c with
      | Some d => digits_value_acc radix (radix * acc + d) l'
      | None => None
      end
  end.
Definition digits_value (radix : Z) (l : list ascii) : option Z :=
  digits_value_acc radix 0 l.

(** White space that [StringToBigInt] trims (the ASCII part of it). *)
Definition is_space (c : ascii) : bool :=
  let n := nat_of_ascii c in
  ((9 <=? n) && (n <=? 13))%nat || (n =? 32)%nat.

Definition trim_start (l : list ascii) : list ascii := drop_while is_space l.
Definition trim_end (l : list ascii) : list ascii :=
  reverse (drop_while is_space (reverse l)).

(** [BigInt(s)] on a string: white space is trimmed, the empty string is
    [0n], a [0x]/[0o]/[0b] prefix selects the radix and takes no sign, and
    anything that is not a numeral is a [SyntaxError]. *)
Definition nonempty_digits (radix : Z) (l : list ascii) : result Z :=
  match l with
  | [] => Throw "SyntaxError: Cannot convert to a BigInt"
  | _ => match digits_value radix l with
         | Some v => Ok v
         | None => Throw "SyntaxError: Cannot convert to a BigInt"
         end
  end.

Definition BigInt (s : string) : result Z :=
  match trim_end (trim_start (chars s)) with
  | [] => Ok 0
  | "0"%char :: "x"%char :: l | "0"%char :: "X"%char :: l => nonempty_digits 16 l
  | "0"%char :: "o"%char :: l | "0"%char :: "O"%char :: l => nonempty_digits 8 l
  | "0"%char :: "b"%char :: l | "0"%char :: "B"%char :: l => nonempty_digits 2 l
  | "-"%char :: l => bind (nonempty_digits 10 l) (fun v => Ok (- v))
  | "+"%char :: l => nonempty_digits 10 l
  | l => nonempty_digits 10 l
  end.

(** The character of a decimal digit [0 <= d < 10]. *)
Definition digit_char (d : Z) : ascii := ascii_of_nat (Z.to_nat (48 + d)).

(** The decimal digits of a non-negative integer, most significant first.
    The fuel bounds the number of digits by the number of bits. *)
Fixpoint decimal_digits (fuel : nat) (n : Z) (acc : list ascii) : list ascii :=
  let acc' := digit_char (n mod 10) :: acc in
  match fuel with
  | O => acc'
  | S fuel' => if n <? 10 then acc' else decimal_digits fuel' (n / 10) acc'
  end.

(** [n.toString()] for a bigint [n]. *)
Definition toString (n : Z) : list ascii :=
  if n <? 0 then "-"%char :: decimal_digits (Z.to_nat (Z.log2 (- n))) (- n) []
  else decimal_digits (Z.to_nat (Z.log2 n)) n [].

(** [s.replace(/(0+)$/, '')]: the trailing run of zeros is removed. *)
Definition strip_trailing_zeros (l : list ascii) : list ascii :=
  reverse (drop_while (fun c => if ascii_dec c "0" then true else false) (reverse l)).

(** ** Dates

    A [Date] object holds a time value: an integral number of milliseconds
    since the epoch, of magnitude at most 8.64e15, or NaN, the Invalid
    Date. *)
Inductive Date : Type :=
| DateAt (ms : Z)
| InvalidDate.

Definition maxTimeValue : Z := 8640000000000000.

(** A number computed from integers: an integer, or NaN ([None]). *)
Definition number : Type := option Z.

(** [Number(value) * 1000] for [value] a bigint or [undefined].
    [Number(undefined)] is NaN and so is its product. The double nearest to
    a bigint [s] and its product with 1000 are exact as long as
    [|s * 1000| <= 2^53]; beyond that, rounding is monotone and leaves the
    product above 9e15 in magnitude, on the same side of [maxTimeValue] as
    the exact product, which is the only use the service makes of it. *)
Definition Number_times_1000 (value : option Z) : number :=
  match value with
  | Some s => Some (s * 1000)
  | None => None
  end.

(** [new Date(value)] of a number ([TimeClip]): a time value of magnitude at
    most 8.64e15 is kept, any other number, NaN included, gives the Invalid
    Date. *)
Definition newDate (value : number) : Date :=
  match value with
  | Some ms => if Z.abs ms <=? maxTimeValue then DateAt ms else InvalidDate
  | None => InvalidDate
  end.

(** [date.getTime()]: NaN for the Invalid Date. *)
Definition getTime (date : Date) : number :=
  match date with
  | DateAt ms => Some ms
  | InvalidDate => None
  end.

End JS.

(** ** The service: address normalisation *)

(** [formatAddress] (lines 79-82). *)
Definition formatAddress (address : string) : string :=
  let cleanAddress := JS.str_slice_from (-40) (JS.replace "0x" "" address) in
  ("0x" ++ cleanAddress)%string.

(** ** Configuration ([./config], a parameter of the service)

    The configuration module is imported by the service but is not part of
    the sources at hand; its three tables are taken as they are used:
    [NETWORKS[key]] (of which the service reads [chainId] and [name]),
    [DEPLOYMENT_BLOCKS[key]] and the three contract addresses. A lookup of a
    key that is not in a table yields [undefined], here [None]. *)

Record NetworkConfig := {
  net_chainId : Z;
  net_name : string;
}.

Record Config := {
  NETWORKS : string -> option NetworkConfig;
  DEPLOYMENT_BLOCKS : string -> option Z;
  CONTRACTS_stablepay : string;
  CONTRACTS_stablepay_etc : string;
  CONTRACTS_stablepay_mordor : string;
}.

(** ** Data model *)

(** A raw log entry as returned by [client.getLogs]: the fields the service
    reads. *)
Record RawLog := {
  topics : list string;
  data : string;
  log_blockNumber : Z;
  log_transactionHash : string;
}.

(** [interface TransactionEvent] (lines 7-17). *)
Record TransactionEvent := {
  buyer : string;
  receiver : string;
  amountSC : string;
  amountBC : string;
  blockNumber : Z;
  transactionHash : string;
  timestamp : option JS.Date;
  chainId : Z;
  networkName : string;
}.

(** A block, as far as the service reads it: [block.timestamp], a bigint in
    seconds, [undefined] ([None]) when the answer of the node carries none. *)
Record Block := { block_timestamp : option Z }.

(** One [getLogs] request: the inclusive block range [[q_from, q_to]]. *)
Record Query := { q_from : Z; q_to : Z }.

(** The viem public client, as far as the service uses it.
    - [getBlockNumber ()] resolves to the current height;
    - [getLogs {address, args: {receiver}?, fromBlock, toBlock}];
    - [getBlock {blockNumber}] resolves to a block, of which only
      [block.timestamp] is read. *)
Record Client := {
  getBlockNumber : result Z;
  getLogs : string -> option string -> Z -> Z -> result (list RawLog);
  getBlock : Z -> result Block;
}.

(** [class TransactionService]: its three clients (lines 60-77). *)
Record TransactionService := {
  sepoliaClient : Client;
  etcClient : Client;
  mordorClient : Client;
}.

(** ** The forward scanner *)

(** [DEPLOYMENT_BLOCKS[networkKey] || BigInt(0)]: [undefined] and [0n] are
    both falsy. *)
Definition deploymentStart (cfg : Config) (networkKey : string) : Z :=
  match DEPLOYMENT_BLOCKS cfg networkKey with
  | Some b => if b =? 0 then 0 else b
  | None => 0
  end.

Definition maxBlockRange : Z := 49999.

(** Line 98: the upper end of the chunk that starts at [fromBlock]. *)
Definition forwardToBlock (currentBlock fromBlock : Z) : Z :=
  if fromBlock + maxBlockRange >? currentBlock then currentBlock
  else fromBlock + maxBlockRange.

(** The [while] loop of lines 96-112. The result pairs the requests issued, in
    order, with the outcome: the accumulated raw logs, or the exception of the
    request that failed. *)
Equations? forwardLoop (client : Client) (contractAddress : string)
    (merchantAddress : option string) (currentBlock fromBlock : Z)
    (allEvents : list RawLog) : list Query * result (list RawLog)
    by wf (Z.to_nat (currentBlock + 1 - fromBlock)) lt :=
  forwardLoop client contractAddress merchantAddress currentBlock fromBlock allEvents
    with Z_le_dec fromBlock currentBlock := {
    | right _ => ([], Ok allEvents)
    | left _ with getLogs client contractAddress merchantAddress fromBlock
                    (forwardToBlock currentBlock fromBlock) := {
      | Throw e =>
          ([Build_Query fromBlock (forwardToBlock currentBlock fromBlock)], Throw e)
      | Ok purchaseEvents =>
          let rest := forwardLoop client contractAddress merchantAddress currentBlock
                        (forwardToBlock currentBlock fromBlock + 1)
                        (allEvents ++ purchaseEvents) in
          (Build_Query fromBlock (forwardToBlock currentBlock fromBlock) :: rest.1,
           rest.2)
      }
    }.
Proof.
  unfold forwardToBlock, maxBlockRange.
  destruct (Z.gtb_spec (fromBlock + 49999) currentBlock); lia.
Qed.

(** ** The log decoder *)

(** Modelled from the spec: [formatUnits] is imported from the viem package,
    whose source is not part of the sources at hand. The spec describes it as
    the exact fixed-point rendering of the raw integer scaled by
    [10^-decimals], with no rounding and no scientific notation, [123456789]
    at 6 decimals giving ["123.456789"] and [0] giving ["0"]: the decimal
    numeral of the integer, left-padded with zeros to [decimals] digits, split
    [decimals] digits from the right, the fraction stripped of its trailing
    zeros and dropped with its point when empty, an empty integer part
    written ["0"]. *)
Definition formatUnits (value : Z) (decimals : nat) : string :=
  let display := JS.toString value in
  let negative := JS.startsWith "-" display in
  let display := if negative then JS.slice_from 1 display else display in
  let display := JS.padStart decimals "0" display in
  let cut := Z.of_nat (length display) - Z.of_nat decimals in
  let integer := JS.slice 0 cut display in
  let fraction := JS.strip_trailing_zeros (JS.slice_from cut display) in
  JS.str ((if negative then ["-"%char] else [])
          ++ (match integer with [] => ["0"%char] | _ => integer end)
          ++ (match fraction with [] => [] | _ => "."%char :: fraction end)).

(** The callback of [allEvents.map] (lines 115-130 and 249-264): one raw log
    to one event. Reading a property of [undefined] (a missing topic, an
    unknown network) and [BigInt] of a malformed string throw. *)
Definition decodeEvent (network : option NetworkConfig) (event : RawLog)
  : result TransactionEvent :=
  let rawData := JS.str_slice_from 2 (data event) in
  let amountSCHex := ("0x" ++ JS.str_slice 0 64 rawData)%string in
  let amountBCHex := ("0x" ++ JS.str_slice_from 64 rawData)%string in
  let topic i :=
    match topics event !! i with
    | Some t => Ok t
    | None => Throw "TypeError: Cannot read properties of undefined (reading 'replace')"
    end in
  let* buyerTopic := topic 1%nat in
  let* receiverTopic := topic 2%nat in
  let* sc := JS.BigInt amountSCHex in
  let* bc := JS.BigInt amountBCHex in
  match network with
  | None => Throw "TypeError: Cannot read properties of undefined (reading 'chainId')"
  | Some network =>
      Ok {| buyer := formatAddress buyerTopic;
            receiver := formatAddress receiverTopic;
            amountSC := formatUnits sc 6;
            amountBC := formatUnits bc 18;
            blockNumber := log_blockNumber event;
            transactionHash := log_transactionHash event;
            timestamp := None;
            chainId := net_chainId network;
            networkName := net_name network |}
  end.

(** [args: merchantAddress ? { receiver: merchantAddress } : undefined]: the
    empty string is falsy. *)
Definition receiverArgs (merchantAddress : option string) : option string :=
  match merchantAddress with
  | Some "" => None
  | other => other
  end.

(** The body of the [try] block of [fetchEventsFromNetwork] (lines 91-130),
    with the requests it issues. *)
Definition forwardScan (cfg : Config) (client : Client) (contractAddress : string)
    (networkKey : string) (merchantAddress : option string)
  : list Query * result (list TransactionEvent) :=
  match getBlockNumber client with
  | Throw e => ([], Throw e)
  | Ok currentBlock =>
      let startBlock := deploymentStart cfg networkKey in
      let scan := forwardLoop client contractAddress (receiverArgs merchantAddress)
                    currentBlock startBlock [] in
      (scan.1,
       let* allEvents := scan.2 in
       mapM (decodeEvent (NETWORKS cfg networkKey)) allEvents)
  end.

(** [fetchEventsFromNetwork] (lines 84-135). *)
Definition fetchEventsFromNetwork (cfg : Config) (client : Client)
    (contractAddress networkKey : string) (merchantAddress : option string)
  : result (list TransactionEvent) :=
  try_catch (forwardScan cfg client contractAddress networkKey merchantAddress).2
    (fun err => Ok []).

(** [Promise.all] of three promises: it rejects with the first rejection. *)
Definition Promise_all3 {A} (p1 p2 p3 : result A) : result (A * A * A) :=
  let* a := p1 in
  let* b := p2 in
  let* c := p3 in
  Ok (a, b, c).

(** [fetchStableCoinPurchases] (lines 137-169). *)
Definition fetchStableCoinPurchases (cfg : Config) (svc : TransactionService)
    (merchantAddress : option string) : result (list TransactionEvent) :=
  try_catch
    (let* all := Promise_all3
        (fetchEventsFromNetwork cfg (sepoliaClient svc) (CONTRACTS_stablepay cfg)
           "sepolia" merchantAddress)
        (fetchEventsFromNetwork cfg (etcClient svc) (CONTRACTS_stablepay_etc cfg)
           "ethereum-classic" merchantAddress)
        (fetchEventsFromNetwork cfg (mordorClient svc) (CONTRACTS_stablepay_mordor cfg)
           "mordor" merchantAddress) in
     let '(sepoliaEvents, etcEvents, mordorEvents) := all in
     Ok (sepoliaEvents ++ etcEvents ++ mordorEvents))
    (fun err => Throw err).

(** ** The timestamp resolver *)

(** [getBlockTimestamp] (lines 171-179). [now] is the reading of the wall
    clock, the time value of the [new Date()] of the [catch] branch. *)
Definition getBlockTimestamp (client : Client) (now : Z) (blockNumber : Z)
  : result JS.Date :=
  try_catch
    (let* block := getBlock client blockNumber in
     Ok (JS.newDate (JS.Number_times_1000 (block_timestamp block))))
    (fun e => Ok (JS.DateAt now)).

(** One batch (lines 188-191): every lookup of the batch stores its result
    under its block number. The lookups of a batch run concurrently; they
    write distinct keys, so the map they leave does not depend on their
    interleaving and they are taken in order. [clock bn] is the wall clock
    at the time the lookup of block [bn] is handled. *)
Fixpoint resolveBatch (client : Client) (clock : Z -> Z) (batch : list Z)
    (blockTimestamps : gmap Z JS.Date) : result (gmap Z JS.Date) :=
  match batch with
  | [] => Ok blockTimestamps
  | bn :: batch' =>
      let* ts := getBlockTimestamp client (clock bn) bn in
      resolveBatch client clock batch' (<[bn := ts]> blockTimestamps)
  end.

(** The [for] loop of lines 186-192, from index [i] on. *)
Equations? resolveBatches (client : Client) (clock : Z -> Z)
    (uniqueBlocks : list Z) (i : nat) (blockTimestamps : gmap Z JS.Date)
  : result (gmap Z JS.Date) by wf (length uniqueBlocks - i)%nat lt :=
  resolveBatches client clock uniqueBlocks i blockTimestamps
    with decide (i < length uniqueBlocks)%nat := {
    | right _ => Ok blockTimestamps
    | left _ =>
        let batch := JS.slice (Z.of_nat i) (Z.of_nat i + 20) uniqueBlocks in
        match resolveBatch client clock batch blockTimestamps with
        | Throw e => Throw e
        | Ok blockTimestamps' =>
            resolveBatches client clock uniqueBlocks (i + 20) blockTimestamps'
        end
    }.
Proof. lia. Qed.

(** [attachTimestamps] (lines 181-198). *)
Definition attachTimestamps (client : Client) (clock : Z -> Z)
    (events : list TransactionEvent) : result (list TransactionEvent) :=
  let uniqueBlocks := JS.unique (map blockNumber events) in
  let* blockTimestamps := resolveBatches client clock uniqueBlocks 0 ∅ in
  Ok (map (fun e =>
             {| buyer := buyer e;
                receiver := receiver e;
                amountSC := amountSC e;
                amountBC := amountBC e;
                blockNumber := blockNumber e;
                transactionHash := transactionHash e;
                timestamp := blockTimestamps !! blockNumber e;
                chainId := chainId e;
                networkName := networkName e |}) events).

(** ** The reverse scanner *)

(** [limit: number | 'all']. The numbers the service is called with are
    integers. *)
Inductive Limit :=
| All
| Num (n : Z).

Definition chunk : Z := 50000.

(** Lines 216-217: the lower end of the chunk that ends at [toBlock]. *)
Definition reverseFromBlock (startBlock toBlock : Z) : Z :=
  if toBlock - chunk <? startBlock then startBlock else toBlock - chunk.

(** Line 233: [limit !== 'all' && collectedEvents.length >= limit]. *)
Definition limitReached {A} (limit : Limit) (collectedEvents : list A) : bool :=
  match limit with
  | All => false
  | Num n => Z.of_nat (length collectedEvents) >=? n
  end.

(** The [while] loop of lines 215-239, with the requests it issues. *)
Equations? reverseLoop (client : Client) (contractAddress : string)
    (merchantAddress : option string) (limit : Limit) (startBlock toBlock : Z)
    (collectedEvents : list RawLog) : list Query * result (list RawLog)
    by wf (Z.to_nat (toBlock + 1 - startBlock)) lt :=
  reverseLoop client contractAddress merchantAddress limit startBlock toBlock
      collectedEvents
    with Z_ge_dec toBlock startBlock := {
    | right _ => ([], Ok collectedEvents)
    | left _ with getLogs client contractAddress merchantAddress
                    (reverseFromBlock startBlock toBlock) toBlock := {
      | Throw e =>
          ([Build_Query (reverseFromBlock startBlock toBlock) toBlock], Throw e)
      | Ok purchaseEvents =>
          let collectedEvents' := collectedEvents ++ purchaseEvents in
          if limitReached limit collectedEvents'
          then ([Build_Query (reverseFromBlock startBlock toBlock) toBlock],
                Ok collectedEvents')
          else if reverseFromBlock startBlock toBlock <=? startBlock
          then ([Build_Query (reverseFromBlock startBlock toBlock) toBlock],
                Ok collectedEvents')
          else
            let rest := reverseLoop client contractAddress merchantAddress limit
                          startBlock (reverseFromBlock startBlock toBlock - 1)
                          collectedEvents' in
            (Build_Query (reverseFromBlock startBlock toBlock) toBlock :: rest.1,
             rest.2)
      }
    }.
Proof.
  unfold reverseFromBlock, chunk.
  destruct (Z.ltb_spec (toBlock - 50000) startBlock); lia.
Qed.

(** Line 242: [(a, b) => Number(b.blockNumber - a.blockNumber)]. *)
Definition byBlockDescending (a b : RawLog) : Z :=
  log_blockNumber b - log_blockNumber a.

(** [if (limit !== 'all') arr = arr.slice(0, limit)] (lines 244-246 and
    294-296). *)
Definition applyLimit {A} (limit : Limit) (l : list A) : list A :=
  match limit with
  | All => l
  | Num n => JS.slice 0 n l
  end.

(** The body of the [try] block of [fetchEventsFromNetworkReverse]
    (lines 208-266), with the requests it issues. *)
Definition reverseScan (cfg : Config) (client : Client) (clock : Z -> Z)
    (contractAddress networkKey : string) (limit : Limit)
    (merchantAddress : option string)
  : list Query * result (list TransactionEvent) :=
  match getBlockNumber client with
  | Throw e => ([], Throw e)
  | Ok currentBlock =>
      let startBlock := deploymentStart cfg networkKey in
      let scan := reverseLoop client contractAddress (receiverArgs merchantAddress)
                    limit startBlock currentBlock [] in
      (scan.1,
       let* collectedEvents := scan.2 in
       let collectedEvents := JS.sort byBlockDescending collectedEvents in
       let collectedEvents := applyLimit limit collectedEvents in
       let* mappedEvents :=
         mapM (decodeEvent (NETWORKS cfg networkKey)) collectedEvents in
       attachTimestamps client clock mappedEvents)
  end.

(** [fetchEventsFromNetworkReverse] (lines 200-272). *)
Definition fetchEventsFromNetworkReverse (cfg : Config) (client : Client)
    (clock : Z -> Z) (contractAddress networkKey : string) (limit : Limit)
    (merchantAddress : option string) : result (list TransactionEvent) :=
  try_catch
    (reverseScan cfg client clock contractAddress networkKey limit
       merchantAddress).2
    (fun err => Ok []).

(** ** The export aggregator *)

(** Lines 288-291: the comparator of the global sort. A [Date] object, the
    Invalid Date included, is truthy, so [!a.timestamp] holds exactly when
    the field is absent. When one of the two is the Invalid Date its
    [getTime()] is NaN and so is the difference, which the sort takes as 0. *)
Definition byTimestampDescending (a b : TransactionEvent) : Z :=
  match timestamp a, timestamp b with
  | Some date_a, Some date_b =>
      match JS.getTime date_b, JS.getTime date_a with
      | Some tb, Some ta => tb - ta
      | _, _ => 0
      end
  | _, _ => 0
  end.

(** [fetchTransactionsForExport] (lines 274-303). [clock key] is the wall
    clock seen by the pipeline of network [key]. *)
Definition fetchTransactionsForExport (cfg : Config) (svc : TransactionService)
    (clock : string -> Z -> Z) (limit : Limit) (merchantAddress : option string)
  : result (list TransactionEvent) :=
  try_catch
    (let fetchFn client contract network :=
       fetchEventsFromNetworkReverse cfg client (clock network) contract network
         limit merchantAddress in
     let* all := Promise_all3
        (fetchFn (sepoliaClient svc) (CONTRACTS_stablepay cfg) "sepolia")
        (fetchFn (etcClient svc) (CONTRACTS_stablepay_etc cfg) "ethereum-classic")
        (fetchFn (mordorClient svc) (CONTRACTS_stablepay_mordor cfg) "mordor") in
     let '(sepoliaEvents, etcEvents, mordorEvents) := all in
     let allEvents := sepoliaEvents ++ etcEvents ++ mordorEvents in
     let allEvents := JS.sort byTimestampDescending allEvents in
     Ok (applyLimit limit allEvents))
    (fun err => Throw err).

(** ** Vocabulary of the properties *)

(** The number of blocks of an inclusive range. *)
Definition span (q : Query) : Z := q_to q - q_from q + 1.

(** How many of the requests [qs] include block [b]. *)
Definition timesQueried (qs : list Query) (b : Z) : nat :=
  length (filter (fun q => q_from q <= b <= q_to q) qs).

(** Every request of [qs] was answered (no rejection): the scan that issued
    them ran its loop to completion. *)
Definition requestsSucceed (client : Client) (contractAddress : string)
    (args : option string) (qs : list Query) : Prop :=
  Forall (fun q => exists logs,
            getLogs client contractAddress args (q_from q) (q_to q) = Ok logs) qs.

(** The chunks of a forward scan from [fromBlock]: each is
    [[fromBlock, min (fromBlock + 49999) currentBlock]] and the next one
    starts at [toBlock + 1]. *)
Fixpoint forwardChunks (currentBlock fromBlock : Z) (qs : list Query) : Prop :=
  match qs with
  | [] => True
  | q :: qs' =>
      q_from q = fromBlock /\
      q_to q = Z.min (fromBlock + 49999) currentBlock /\
      forwardChunks currentBlock (q_to q + 1) qs'
  end.

(** One iteration of the forward loop takes [fromBlock] to [next]. *)
Definition forwardIteration (currentBlock : Z) (next fromBlock : Z) : Prop :=
  fromBlock <= currentBlock /\ next = forwardToBlock currentBlock fromBlock + 1.

(** One iteration of the reverse loop that does not [break] takes [toBlock]
    to [next] (whatever the limit and the logs received). *)
Definition reverseIteration (startBlock : Z) (next toBlock : Z) : Prop :=
  toBlock >= startBlock /\
  ~ reverseFromBlock startBlock toBlock <= startBlock /\
  next = reverseFromBlock startBlock toBlock - 1.

(** The logs of a chain that a request over [[fromBlock, toBlock]] matches. *)
Definition logsInRange (chainLogs : list RawLog) (fromBlock toBlock : Z)
  : list RawLog :=
  filter (fun l => fromBlock <= log_blockNumber l <= toBlock) chainLogs.

(** The events a network contributes to an aggregation: those of its scan,
    none when the scan threw. *)
Definition eventsOf (outcome : result (list TransactionEvent))
  : list TransactionEvent :=
  match outcome with
  | Ok events => events
  | Throw _ => []
  end.

(** The [Date] the resolver ends up with for block [bn]: the one made of the
    block's own time when the lookup succeeds, the wall clock when it
    fails. *)
Definition resolvedTime (client : Client) (clock : Z -> Z) (bn : Z) : JS.Date :=
  match getBlock client bn with
  | Ok block => JS.newDate (JS.Number_times_1000 (block_timestamp block))
  | Throw _ => JS.DateAt (clock bn)
  end.

(** The map after the lookup of block [bn] has stored its result. *)
Definition storeResolved (client : Client) (clock : Z -> Z)
    (blockTimestamps : gmap Z JS.Date) (bn : Z) : gmap Z JS.Date :=
  <[bn := resolvedTime client clock bn]> blockTimestamps.

(** [e] with the resolved time of its block attached. *)
Definition resolved (client : Client) (clock : Z -> Z) (e : TransactionEvent)
  : TransactionEvent :=
  {| buyer := buyer e; receiver := receiver e;
     amountSC := amountSC e; amountBC := amountBC e;
     blockNumber := blockNumber e; transactionHash := transactionHash e;
     timestamp := Some (resolvedTime client clock (blockNumber e));
     chainId := chainId e; networkName := networkName e |}.

(** [e] carries a timestamp. *)
Definition stamped (e : TransactionEvent) : Prop := is_Some (timestamp e).

(** [e] carries a timestamp that is a valid [Date]. *)
Definition dated (e : TransactionEvent) : Prop :=
  exists ms, timestamp e = Some (JS.DateAt ms).

(** The order of decreasing time, on events that carry valid dates. *)
Definition laterOrEqual (a b : TransactionEvent) : Prop :=
  exists ta tb,
    timestamp a = Some (JS.DateAt ta) /\ timestamp b = Some (JS.DateAt tb) /\
    ta >= tb.

(** The timestamps of the blocks that the node returns are bigints within
    the range of a [Date]: at most 8.64e12 seconds in magnitude. *)
Definition reportsDates (client : Client) : Prop :=
  forall bn block,
    getBlock client bn = Ok block ->
    exists seconds,
      block_timestamp block = Some seconds /\ Z.abs seconds <= 8640000000000.

(** [e'] is [e] up to its [timestamp]. *)
Definition sameButTimestamp (e e' : TransactionEvent) : Prop :=
  buyer e' = buyer e /\ receiver e' = receiver e /\
  amountSC e' = amountSC e /\ amountBC e' = amountBC e /\
  blockNumber e' = blockNumber e /\ transactionHash e' = transactionHash e /\
  chainId e' = chainId e /\ networkName e' = networkName e.

(** [e] as the decoder builds it, before a timestamp is attached. *)
Definition withoutTimestamp (e : TransactionEvent) : TransactionEvent :=
  {| buyer := buyer e; receiver := receiver e;
     amountSC := amountSC e; amountBC := amountBC e;
     blockNumber := blockNumber e; transactionHash := transactionHash e;
     timestamp := None;
     chainId := chainId e; networkName := networkName e |}.

(** A healthy node: every log request is answered with the logs of the chain
    in the requested range. *)
Definition servesChain (client : Client) (contractAddress : string)
    (args : option string) (chainLogs : list RawLog) : Prop :=
  forall fromBlock toBlock,
    getLogs client contractAddress args fromBlock toBlock
    = Ok (logsInRange chainLogs fromBlock toBlock).

(** A lowercase hexadecimal digit. *)
Definition lowerHex (c : ascii) : bool :=
  let n := nat_of_ascii c in
  (((48 <=? n) && (n <=? 57)) || ((97 <=? n) && (n <=? 102)))%nat.

(** Reading a decimal string back: the digits before and after the point.
    [splitPoint l] cuts [l] at its first point. *)
Fixpoint splitPoint (l : list ascii) : list ascii * option (list ascii) :=
  match l with
  | [] => ([], None)
  | c :: l' =>
      if ascii_dec c "." then ([], Some l')
      else (c :: (splitPoint l').1, (splitPoint l').2)
  end.

(** [fixedPoint s = Some (m, k)] when [s] is a plain decimal numeral, digits
    with at most one point that has digits on both sides, and denotes
    [m / 10^k]: [m] is the number written by its digits and [k] the number of
    digits after the point. An exponent, a sign or any other character makes
    it [None]. *)
Definition fixedPoint (s : string) : option (Z * nat) :=
  match splitPoint (JS.chars s) with
  | ([], _) => None
  | (integer, None) =>
      match JS.digits_value 10 integer with
      | Some m => Some (m, 0%nat)
      | None => None
      end
  | (_, Some []) => None
  | (integer, Some fraction) =>
      match JS.digits_value 10 (integer ++ fraction) with
      | Some m => Some (m, length fraction)
      | None => None
      end
  end.

(** The string [s] denotes exactly [value / 10^decimals]. *)
Definition denotesScaled (s : string) (value : Z) (decimals : nat) : Prop :=
  exists m k, fixedPoint s = Some (m, k) /\ (k <= decimals)%nat /\
              value = m * 10 ^ Z.of_nat (decimals - k).

(** ** Sample inputs *)

Module Sample.

Definition cfg : Config :=
  {| NETWORKS := fun key =>
       if decide (key = "sepolia") then Some {| net_chainId := 11155111; net_name := "Sepolia" |}
       else if decide (key = "ethereum-classic") then Some {| net_chainId := 61; net_name := "Ethereum Classic" |}
       else if decide (key = "mordor") then Some {| net_chainId := 63; net_name := "Mordor" |}
       else None;
     DEPLOYMENT_BLOCKS := fun key =>
       if decide (key = "sepolia") then Some 1000 else None;
     CONTRACTS_stablepay := "0x1111111111111111111111111111111111111111";
     CONTRACTS_stablepay_etc := "0x2222222222222222222222222222222222222222";
     CONTRACTS_stablepay_mordor := "0x3333333333333333333333333333333333333333" |}.

(** A purchase of 123.456789 stable coins for 1 base coin, logged at block
    [bn]. *)
Definition purchase (bn : Z) : RawLog :=
  {| topics :=
       ["0x5c9c1b8b0f6d6f0a7a6d1a3c7c2b1e0f9d8c7b6a5f4e3d2c1b0a99887766554433";
        "0x00000000000000000000000012345678901234567890abcdefabcdefabcdefab";
        "0x000000000000000000000000AbCdEf0123456789abcdef0123456789abcdef01"];
     data := "0x00000000000000000000000000000000000000000000000000000000075bcd150000000000000000000000000000000000000000000000000de0b6b3a7640000";
     log_blockNumber := bn;
     log_transactionHash := "0x9f2d" |}.

(** A healthy node at height [height] whose contract logged [chainLogs];
    block [bn] was mined at second [1700000000 + 12 * bn], and the node has
    no block outside [[0, height]]. *)
Definition node (height : Z) (chainLogs : list RawLog) : Client :=
  {| getBlockNumber := Ok height;
     getLogs := fun _ _ fromBlock toBlock => Ok (logsInRange chainLogs fromBlock toBlock);
     getBlock := fun bn =>
       if (0 <=? bn) && (bn <=? height)
       then Ok {| block_timestamp := Some (1700000000 + 12 * bn) |}
       else Throw "BlockNotFoundError" |}.

(** A node that knows its height but rejects every log request. *)
Definition rpcError (height : Z) : Client :=
  {| getBlockNumber := Ok height;
     getLogs := fun _ _ _ _ => Throw "RpcRequestError: HTTP request failed";
     getBlock := fun bn => Throw "RpcRequestError: HTTP request failed" |}.

Definition clock (bn : Z) : Z := 1762000000000.

(** A node whose block lookups fail below block 100. *)
Definition flaky (height : Z) (chainLogs : list RawLog) : Client :=
  {| getBlockNumber := Ok height;
     getLogs := fun _ _ fromBlock toBlock => Ok (logsInRange chainLogs fromBlock toBlock);
     getBlock := fun bn =>
       if bn <? 100 then Throw "BlockNotFoundError"
       else Ok {| block_timestamp := Some (1700000000 + 12 * bn) |} |}.

(** A node at height [height] that answers every log request with an RPC
    error; its block lookups work. *)
Definition deaf (height : Z) : Client :=
  {| getBlockNumber := Ok height;
     getLogs := fun _ _ _ _ => Throw "RpcRequestError: HTTP request failed";
     getBlock := fun bn => Ok {| block_timestamp := Some (1700000000 + 12 * bn) |} |}.

(** A healthy node whose block 1001 reports second 2000, whose block 1002
    reports second 9e12, beyond the range of a [Date], and whose other
    blocks report second 1000. *)
Definition farFuture (height : Z) (chainLogs : list RawLog) : Client :=
  {| getBlockNumber := Ok height;
     getLogs := fun _ _ fromBlock toBlock => Ok (logsInRange chainLogs fromBlock toBlock);
     getBlock := fun bn =>
       Ok {| block_timestamp :=
               Some (if bn =? 1001 then 2000
                     else if bn =? 1002 then 9000000000000 else 1000) |} |}.

(** Three purchases on that sepolia node, none on the two other networks. *)
Definition farFutureService : TransactionService :=
  {| sepoliaClient := farFuture 2000 (map purchase [1001; 1002; 1003]);
     etcClient := node 90000 [];
     mordorClient := node 70000 [] |}.

(** Five purchases on sepolia, an unreachable ethereum-classic node, three
    purchases on mordor. *)
Definition service : TransactionService :=
  {| sepoliaClient := node 120000 (map purchase [1200; 1300; 60000; 60000; 110000]);
     etcClient := rpcError 90000;
     mordorClient := node 70000 (map purchase [5; 50000; 69999]) |}.

Definition sepoliaEvents : list TransactionEvent :=
  Eval vm_compute in
    eventsOf (forwardScan cfg (sepoliaClient service) (CONTRACTS_stablepay cfg)
                "sepolia" None).2.

Definition mordorEvents : list TransactionEvent :=
  Eval vm_compute in
    eventsOf (forwardScan cfg (mordorClient service) (CONTRACTS_stablepay_mordor cfg)
                "mordor" None).2.

(** The sepolia contract of the reverse-scan example logged two purchases. *)
Definition twoPurchases : list RawLog := [purchase 1500; purchase 70000].

Definition twoPurchasesDecoded : list TransactionEvent :=
  Eval vm_compute in
    eventsOf (mapM (decodeEvent (NETWORKS cfg "sepolia")) twoPurchases).

End Sample.

(** ** Further vocabulary *)

(** [e] carries the chain id and the name registered under [networkKey]. *)
Definition taggedWith (cfg : Config) (networkKey : string)
    (e : TransactionEvent) : Prop :=
  exists network,
    NETWORKS cfg networkKey = Some network /\
    chainId e = net_chainId network /\ networkName e = net_name network.

(** The logs are listed by ascending block number, as a node returns them. *)
Definition ascendingBlocks (logs : list RawLog) : Prop :=
  StronglySorted (fun a b => log_blockNumber a <= log_blockNumber b) logs.

(** ** Further sample inputs *)

Module Fixtures.

(** A log whose data field holds a single 32-byte word. *)
Definition truncated (bn : Z) : RawLog :=
  {| topics := topics (Sample.purchase bn);
     data := "0x00000000000000000000000000000000000000000000000000000000075bcd15";
     log_blockNumber := bn;
     log_transactionHash := "0x77aa" |}.

(** A chain with seven purchases, in block order. *)
Definition sevenPurchases : list RawLog :=
  map Sample.purchase [1500; 20000; 20000; 69999; 70000; 90000; 119000].

Definition sevenPurchasesDecoded : list TransactionEvent :=
  Eval vm_compute in
    eventsOf (mapM (decodeEvent (NETWORKS Sample.cfg "sepolia")) sevenPurchases).

End Fixtures.

(** ** The transactions page

    The helpers and the filter state of the page that lists the events
    (the second source file). *)

Module Page.

(** [formatAddress] of the page (lines 16-18): the shortened form shown in
    the table. *)
Definition formatAddress (address : string) : string :=
  (JS.str_slice 0 6 address ++ "..." ++ JS.str_slice_from (-4) address)%string.

(** An entry of [Object.values(NETWORKS)], as far as the page reads it; an
    absent [explorerUrl] is [None]. *)
Record Network := {
  chainId : Z;
  explorerUrl : option string;
}.

(** [arr.find(p)]: the first element that satisfies [p]. *)
Fixpoint find {A} (p : A -> bool) (l : list A) : option A :=
  match l with
  | [] => None
  | x :: l' => if p x then Some x else find p l'
  end.

(** [getExplorerUrl] (lines 21-27); [networks] is [Object.values(NETWORKS)].
    The empty string is falsy. *)
Definition getExplorerUrl (networks : list Network) (chain : Z)
    (txHash : string) : string :=
  let network := find (fun n => chainId n =? chain) networks in
  match network with
  | Some {| explorerUrl := Some (String c url) |} =>
      (String c url ++ "/tx/" ++ txHash)%string
  | _ => ("https://sepolia.etherscan.io/tx/" ++ txHash)%string
  end.

(** [interface FilterCriteria] (lines 46-53). *)
Record FilterCriteria := {
  dateFrom : string;
  dateTo : string;
  amountMin : string;
  amountMax : string;
  status : list string;
  riskLevel : list string;
}.

(** The state that [handleResetFilters] sets (lines 119-128). *)
Definition handleResetFilters : FilterCriteria :=
  {| dateFrom := ""; dateTo := ""; amountMin := ""; amountMax := "";
     status := []; riskLevel := [] |}.

(** [list.includes(x) ? list.filter(s => s !== x) : [...list, x]]. *)
Definition toggle (x : string) (l : list string) : list string :=
  if decide (x ∈ l) then filter (fun s => s <> x) l else l ++ [x].

(** [handleToggleStatus] and [handleToggleRiskLevel] (lines 130-146), as the
    state updates they pass to [setFilters]. *)
Definition handleToggleStatus (s : string) (prev : FilterCriteria)
  : FilterCriteria :=
  {| dateFrom := dateFrom prev; dateTo := dateTo prev;
     amountMin := amountMin prev; amountMax := amountMax prev;
     status := toggle s (status prev); riskLevel := riskLevel prev |}.

Definition handleToggleRiskLevel (risk : string) (prev : FilterCriteria)
  : FilterCriteria :=
  {| dateFrom := dateFrom prev; dateTo := dateTo prev;
     amountMin := amountMin prev; amountMax := amountMax prev;
     status := status prev; riskLevel := toggle risk (riskLevel prev) |}.

(** [hasActiveFilters] (lines 148-154), as a boolean: a non-empty string and
    a positive length are truthy. *)
Definition hasActiveFilters (filters : FilterCriteria) : bool :=
  let truthy s := match s with EmptyString => false | _ => true end in
  truthy (dateFrom filters) || truthy (dateTo filters)
  || truthy (amountMin filters) || truthy (amountMax filters)
  || (0 <? length (status filters))%nat || (0 <? length (riskLevel filters))%nat.

End Page.

(** * Properties *)

(** ** The scan loops *)

Section Loops.
Context (client : Client) (contractAddress : string) (args : option string).

Lemma forwardToBlock_min currentBlock fromBlock :
  forwardToBlock currentBlock fromBlock = Z.min (fromBlock + 49999) currentBlock.
Proof.
  unfold forwardToBlock, maxBlockRange.
  destruct (Z.gtb_spec (fromBlock + 49999) currentBlock); lia.
Qed.

Lemma reverseFromBlock_max startBlock toBlock :
  reverseFromBlock startBlock toBlock = Z.max (toBlock - 50000) startBlock.
Proof.
  unfold reverseFromBlock, chunk.
  destruct (Z.ltb_spec (toBlock - 50000) startBlock); lia.
Qed.

(** The loops unfold as the [while] statements they embed. *)
Lemma forwardLoop_while currentBlock fromBlock allEvents :
  forwardLoop client contractAddress args currentBlock fromBlock allEvents =
  if decide (fromBlock <= currentBlock) then
    let toBlock := forwardToBlock currentBlock fromBlock in
    match getLogs client contractAddress args fromBlock toBlock with
    | Throw e => ([Build_Query fromBlock toBlock], Throw e)
    | Ok purchaseEvents =>
        let rest := forwardLoop client contractAddress args currentBlock
                      (toBlock + 1) (allEvents ++ purchaseEvents) in
        (Build_Query fromBlock toBlock :: rest.1, rest.2)
    end
  else ([], Ok allEvents).
Proof.
  simp forwardLoop.
  destruct (Z_le_dec fromBlock currentBlock); simpl;
    destruct (decide (fromBlock <= currentBlock)); try lia; try reflexivity.
  destruct (getLogs _ _ _ _ _); reflexivity.
Qed.

Lemma reverseLoop_while limit startBlock toBlock collectedEvents :
  reverseLoop client contractAddress args limit startBlock toBlock
    collectedEvents =
  if decide (toBlock >= startBlock) then
    let fromBlock := reverseFromBlock startBlock toBlock in
    match getLogs client contractAddress args fromBlock toBlock with
    | Throw e => ([Build_Query fromBlock toBlock], Throw e)
    | Ok purchaseEvents =>
        let collectedEvents' := collectedEvents ++ purchaseEvents in
        if limitReached limit collectedEvents'
        then ([Build_Query fromBlock toBlock], Ok collectedEvents')
        else if fromBlock <=? startBlock
        then ([Build_Query fromBlock toBlock], Ok collectedEvents')
        else
          let rest := reverseLoop client contractAddress args limit startBlock
                        (fromBlock - 1) collectedEvents' in
          (Build_Query fromBlock toBlock :: rest.1, rest.2)
    end
  else ([], Ok collectedEvents).
Proof.
  simp reverseLoop.
  destruct (Z_ge_dec toBlock startBlock); simpl;
    destruct (decide (toBlock >= startBlock)); try lia; try reflexivity.
  destruct (getLogs _ _ _ _ _); reflexivity.
Qed.

(** Induction along the iterations of the forward loop: the loop is over, the
    request of the iteration is rejected, or it is answered and the loop goes
    on from [toBlock + 1]. *)
Lemma forwardLoop_iter_ind currentBlock
    (P : Z -> list RawLog -> list Query * result (list RawLog) -> Prop) :
  (forall fromBlock allEvents,
      currentBlock < fromBlock -> P fromBlock allEvents ([], Ok allEvents)) ->
  (forall fromBlock allEvents err,
      fromBlock <= currentBlock ->
      let toBlock := Z.min (fromBlock + 49999) currentBlock in
      getLogs client contractAddress args fromBlock toBlock = Throw err ->
      P fromBlock allEvents ([Build_Query fromBlock toBlock], Throw err)) ->
  (forall fromBlock allEvents purchaseEvents rest,
      fromBlock <= currentBlock ->
      let toBlock := Z.min (fromBlock + 49999) currentBlock in
      getLogs client contractAddress args fromBlock toBlock = Ok purchaseEvents ->
      P (toBlock + 1) (allEvents ++ purchaseEvents) rest ->
      P fromBlock allEvents (Build_Query fromBlock toBlock :: rest.1, rest.2)) ->
  forall fromBlock allEvents,
    P fromBlock allEvents
      (forwardLoop client contractAddress args currentBlock fromBlock allEvents).
Proof.
  intros Hexit Hthrow Hnext fromBlock.
  remember (Z.to_nat (currentBlock + 1 - fromBlock)) as n eqn:Hn.
  revert fromBlock Hn. induction n as [n IH] using lt_wf_ind.
  intros fromBlock Hn allEvents. rewrite forwardLoop_while.
  destruct (decide (fromBlock <= currentBlock)) as [Hle|Hgt];
    [|apply Hexit; lia].
  cbv zeta. rewrite forwardToBlock_min.
  destruct (getLogs _ _ _ _ _) as [purchaseEvents|err] eqn:Hlogs.
  - apply (Hnext fromBlock allEvents purchaseEvents _ Hle Hlogs).
    eapply IH; [|reflexivity]. lia.
  - apply (Hthrow fromBlock allEvents err Hle Hlogs).
Qed.

(** Induction along the iterations of the reverse loop: the loop is over, the
    request is rejected, the limit is reached, the deployment block is
    reached, or the loop goes on from [fromBlock - 1]. *)
Lemma reverseLoop_iter_ind limit startBlock
    (P : Z -> list RawLog -> list Query * result (list RawLog) -> Prop) :
  (forall toBlock collectedEvents,
      toBlock < startBlock -> P toBlock collectedEvents ([], Ok collectedEvents)) ->
  (forall toBlock collectedEvents err,
      startBlock <= toBlock ->
      let fromBlock := Z.max (toBlock - 50000) startBlock in
      getLogs client contractAddress args fromBlock toBlock = Throw err ->
      P toBlock collectedEvents ([Build_Query fromBlock toBlock], Throw err)) ->
  (forall toBlock collectedEvents purchaseEvents,
      startBlock <= toBlock ->
      let fromBlock := Z.max (toBlock - 50000) startBlock in
      getLogs client contractAddress args fromBlock toBlock = Ok purchaseEvents ->
      limitReached limit (collectedEvents ++ purchaseEvents) = true
      \/ fromBlock = startBlock ->
      P toBlock collectedEvents
        ([Build_Query fromBlock toBlock], Ok (collectedEvents ++ purchaseEvents))) ->
  (forall toBlock collectedEvents purchaseEvents rest,
      startBlock <= toBlock ->
      let fromBlock := Z.max (toBlock - 50000) startBlock in
      getLogs client contractAddress args fromBlock toBlock = Ok purchaseEvents ->
      limitReached limit (collectedEvents ++ purchaseEvents) = false ->
      startBlock < fromBlock ->
      P (fromBlock - 1) (collectedEvents ++ purchaseEvents) rest ->
      P toBlock collectedEvents (Build_Query fromBlock toBlock :: rest.1, rest.2)) ->
  forall toBlock collectedEvents,
    P toBlock collectedEvents
      (reverseLoop client contractAddress args limit startBlock toBlock
         collectedEvents).
Proof.
  intros Hexit Hthrow Hbreak Hnext toBlock.
  remember (Z.to_nat (toBlock + 1 - startBlock)) as n eqn:Hn.
  revert toBlock Hn. induction n as [n IH] using lt_wf_ind.
  intros toBlock Hn collectedEvents. rewrite reverseLoop_while.
  destruct (decide (toBlock >= startBlock)) as [Hge|Hlt];
    [|apply Hexit; lia].
  cbv zeta. rewrite reverseFromBlock_max.
  assert (Hle : startBlock <= toBlock) by lia.
  destruct (getLogs _ _ _ _ _) as [purchaseEvents|err] eqn:Hlogs;
    [|exact (Hthrow toBlock collectedEvents err Hle Hlogs)].
  destruct (limitReached _ _) eqn:Hlimit;
    [exact (Hbreak toBlock collectedEvents purchaseEvents Hle Hlogs
              (or_introl Hlimit))|].
  destruct (Z.leb_spec (Z.max (toBlock - 50000) startBlock) startBlock) as [Hmin|Hgt].
  - apply (Hbreak toBlock collectedEvents purchaseEvents Hle Hlogs).
    right. lia.
  - apply (Hnext toBlock collectedEvents purchaseEvents _ Hle Hlogs Hlimit Hgt).
    eapply IH; [|reflexivity]. lia.
Qed.

(** *** Requests issued by the forward loop *)

Lemma timesQueried_cons q qs b :
  timesQueried (q :: qs) b =
  ((if decide (q_from q <= b <= q_to q)%Z then 1 else 0) + timesQueried qs b)%nat.
Proof.
  unfold timesQueried. rewrite filter_cons.
  destruct (decide (q_from q <= b <= q_to q)); reflexivity.
Qed.

Lemma forwardLoop_chunks currentBlock fromBlock allEvents :
  forwardChunks currentBlock fromBlock
    (forwardLoop client contractAddress args currentBlock fromBlock allEvents).1.
Proof.
  revert fromBlock allEvents.
  apply (forwardLoop_iter_ind currentBlock
           (fun fromBlock _ r => forwardChunks currentBlock fromBlock r.1));
    simpl; intros; repeat split; assumption.
Qed.

Lemma forwardLoop_coverage currentBlock fromBlock allEvents :
  requestsSucceed client contractAddress args
    (forwardLoop client contractAddress args currentBlock fromBlock allEvents).1 ->
  forall b,
    timesQueried
      (forwardLoop client contractAddress args currentBlock fromBlock allEvents).1 b
    = if decide (fromBlock <= b <= currentBlock) then 1%nat else 0%nat.
Proof.
  revert fromBlock allEvents.
  apply (forwardLoop_iter_ind currentBlock
           (fun fromBlock _ r =>
              requestsSucceed client contractAddress args r.1 ->
              forall b, timesQueried r.1 b
                        = if decide (fromBlock <= b <= currentBlock)
                          then 1%nat else 0%nat)); simpl.
  - intros fromBlock _ Hgt _ b. case_decide; [lia|reflexivity].
  - intros fromBlock _ err _ Hlogs [[logs Hq] _]%Forall_cons.
    simpl in Hq. congruence.
  - intros fromBlock _ logs rest Hle _ IH [_ Hok]%Forall_cons b.
    rewrite timesQueried_cons, (IH Hok b). simpl.
    repeat case_decide; lia.
Qed.

Lemma forwardLoop_spans currentBlock fromBlock allEvents :
  Forall (fun q => 1 <= span q <= 50000)
    (forwardLoop client contractAddress args currentBlock fromBlock allEvents).1.
Proof.
  revert fromBlock allEvents.
  apply (forwardLoop_iter_ind currentBlock
           (fun _ _ r => Forall (fun q => 1 <= span q <= 50000) r.1));
    simpl; intros; repeat constructor; try assumption; unfold span; simpl; lia.
Qed.

Lemma forwardLoop_iterations currentBlock fromBlock allEvents :
  (length (forwardLoop client contractAddress args currentBlock fromBlock
             allEvents).1
   <= Z.to_nat (currentBlock + 1 - fromBlock))%nat.
Proof.
  revert fromBlock allEvents.
  apply (forwardLoop_iter_ind currentBlock
           (fun fromBlock _ r =>
              (length r.1 <= Z.to_nat (currentBlock + 1 - fromBlock))%nat));
    simpl; intros; lia.
Qed.

(** *** Requests issued by the reverse loop *)

Lemma reverseLoop_coverage startBlock toBlock collectedEvents :
  requestsSucceed client contractAddress args
    (reverseLoop client contractAddress args All startBlock toBlock
       collectedEvents).1 ->
  forall b,
    timesQueried
      (reverseLoop client contractAddress args All startBlock toBlock
         collectedEvents).1 b
    = if decide (startBlock <= b <= toBlock) then 1%nat else 0%nat.
Proof.
  revert toBlock collectedEvents.
  apply (reverseLoop_iter_ind All startBlock
           (fun toBlock _ r =>
              requestsSucceed client contractAddress args r.1 ->
              forall b, timesQueried r.1 b
                        = if decide (startBlock <= b <= toBlock)
                          then 1%nat else 0%nat)); simpl.
  - intros toBlock _ Hlt _ b. case_decide; [lia|reflexivity].
  - intros toBlock _ err _ Hlogs [[logs Hq] _]%Forall_cons.
    simpl in Hq. congruence.
  - intros toBlock _ logs Hle _ [Hlimit|Hstart] _ b; [discriminate|].
    rewrite timesQueried_cons. unfold timesQueried. simpl.
    repeat case_decide; lia.
  - intros toBlock _ logs rest Hle _ _ Hgt IH [_ Hok]%Forall_cons b.
    rewrite timesQueried_cons, (IH Hok b). simpl.
    repeat case_decide; lia.
Qed.

Lemma reverseLoop_spans limit startBlock toBlock collectedEvents :
  Forall (fun q => 1 <= span q <= 50001)
    (reverseLoop client contractAddress args limit startBlock toBlock
       collectedEvents).1.
Proof.
  revert toBlock collectedEvents.
  apply (reverseLoop_iter_ind limit startBlock
           (fun _ _ r => Forall (fun q => 1 <= span q <= 50001) r.1));
    simpl; intros; repeat constructor; try assumption; unfold span; simpl; lia.
Qed.

Lemma reverseLoop_iterations limit startBlock toBlock collectedEvents :
  (length (reverseLoop client contractAddress args limit startBlock toBlock
             collectedEvents).1
   <= Z.to_nat (toBlock + 1 - startBlock))%nat.
Proof.
  revert toBlock collectedEvents.
  apply (reverseLoop_iter_ind limit startBlock
           (fun toBlock _ r =>
              (length r.1 <= Z.to_nat (toBlock + 1 - startBlock))%nat));
    simpl; intros; lia.
Qed.

End Loops.

(** ** Termination of the scan loops *)

(** C10. Both scan loops terminate, for every current height and every
    deployment block (non-negative ones in particular). An iteration of the
    forward loop moves [fromBlock] up by at least one while
    [fromBlock <= currentBlock], and an iteration of the reverse loop that
    does not break moves [toBlock] strictly down while
    [toBlock >= startBlock]: neither iteration relation has an infinite chain,
    and the loops issue at most [currentBlock + 1 - startBlock] requests
    whatever the client answers. *)
Theorem scan_loops_terminate (currentBlock startBlock : Z) :
  (forall fromBlock next,
     forwardIteration currentBlock next fromBlock ->
     fromBlock + 1 <= next <= currentBlock + 1) /\
  well_founded (forwardIteration currentBlock) /\
  (forall toBlock next,
     reverseIteration startBlock next toBlock ->
     startBlock <= next < toBlock) /\
  well_founded (reverseIteration startBlock) /\
  (forall client contractAddress args allEvents,
     (length (forwardLoop client contractAddress args currentBlock startBlock
                allEvents).1
      <= Z.to_nat (currentBlock + 1 - startBlock))%nat) /\
  (forall client contractAddress args limit collectedEvents,
     (length (reverseLoop client contractAddress args limit startBlock
                currentBlock collectedEvents).1
      <= Z.to_nat (currentBlock + 1 - startBlock))%nat).
Proof.
  assert (Hfwd : forall fromBlock next,
             forwardIteration currentBlock next fromBlock ->
             fromBlock + 1 <= next <= currentBlock + 1).
  { intros fromBlock next [Hle ->]. rewrite forwardToBlock_min. lia. }
  assert (Hrev : forall toBlock next,
             reverseIteration startBlock next toBlock ->
             startBlock <= next < toBlock).
  { intros toBlock next (Hge & Hnot & ->). rewrite reverseFromBlock_max in *. lia. }
  split; [exact Hfwd|]. split.
  { apply (well_founded_lt_compat _ (fun b => Z.to_nat (currentBlock + 1 - b))).
    intros next fromBlock Hit. pose proof (Hfwd _ _ Hit). destruct Hit. lia. }
  split; [exact Hrev|]. split.
  { apply (well_founded_lt_compat _ (fun b => Z.to_nat (b + 1 - startBlock))).
    intros next toBlock Hit. pose proof (Hrev _ _ Hit). destruct Hit. lia. }
  split.
  - intros. apply forwardLoop_iterations.
  - intros. apply reverseLoop_iterations.
Qed.

(** ** Coverage of the scanned range *)

(** C2. When the height read at the start of the scan is at least the
    deployment block, a scan whose requests all succeed (a forward scan, or a
    reverse scan with limit ['all']) queries every block of
    [[deploymentStartBlock, currentHeight]] exactly once and no block outside
    it; the chunks of the forward scan are
    [[fromBlock, min (fromBlock + 49999) currentHeight]], each starting one
    block after the end of the previous one. *)
Theorem chunked_scans_cover_range_exactly (cfg : Config) (client : Client)
    (clock : Z -> Z) (contractAddress networkKey : string)
    (merchantAddress : option string) (currentHeight : Z) :
  getBlockNumber client = Ok currentHeight ->
  deploymentStart cfg networkKey <= currentHeight ->
  let startBlock := deploymentStart cfg networkKey in
  let forward :=
    (forwardScan cfg client contractAddress networkKey merchantAddress).1 in
  let reverse :=
    (reverseScan cfg client clock contractAddress networkKey All
       merchantAddress).1 in
  forwardChunks currentHeight startBlock forward /\
  (requestsSucceed client contractAddress (receiverArgs merchantAddress) forward ->
   forall b, timesQueried forward b
             = if decide (startBlock <= b <= currentHeight) then 1%nat else 0%nat) /\
  (requestsSucceed client contractAddress (receiverArgs merchantAddress) reverse ->
   forall b, timesQueried reverse b
             = if decide (startBlock <= b <= currentHeight) then 1%nat else 0%nat).
Proof.
  intros Hheight Hle startBlock. unfold forwardScan, reverseScan.
  rewrite Hheight. simpl. fold startBlock. repeat split.
  - apply forwardLoop_chunks.
  - intros Hok b. apply forwardLoop_coverage. exact Hok.
  - intros Hok b. apply reverseLoop_coverage. exact Hok.
Qed.

(** A forward scan of blocks 1000 to 120000 and a reverse scan of the same
    range on a healthy node: three requests each, every block queried once. *)
Lemma chunked_scans_cover_range_exactly_witness :
  let client := Sample.node 120000 [Sample.purchase 1500; Sample.purchase 70000] in
  let forward := (forwardScan Sample.cfg client "0x1111" "sepolia" None).1 in
  let reverse := (reverseScan Sample.cfg client Sample.clock "0x1111" "sepolia" All None).1 in
  forward = [Build_Query 1000 50999; Build_Query 51000 100999; Build_Query 101000 120000] /\
  reverse = [Build_Query 70000 120000; Build_Query 19999 69999; Build_Query 1000 19998] /\
  forwardChunks 120000 1000 forward /\
  (forall b, timesQueried forward b
             = if decide (1000 <= b <= 120000) then 1%nat else 0%nat) /\
  (forall b, timesQueried reverse b
             = if decide (1000 <= b <= 120000) then 1%nat else 0%nat).
Proof.
  intros client forward reverse.
  assert (Hf : forward = [Build_Query 1000 50999; Build_Query 51000 100999;
                          Build_Query 101000 120000]) by (vm_compute; reflexivity).
  assert (Hr : reverse = [Build_Query 70000 120000; Build_Query 19999 69999;
                          Build_Query 1000 19998]) by (vm_compute; reflexivity).
  destruct (chunked_scans_cover_range_exactly Sample.cfg client Sample.clock
              "0x1111" "sepolia" None 120000 eq_refl ltac:(vm_compute; congruence))
    as (Hchunks & Hforward & Hreverse).
  split; [exact Hf|]. split; [exact Hr|]. split; [exact Hchunks|]. split.
  - apply Hforward. fold forward. rewrite Hf.
    repeat constructor; eexists; reflexivity.
  - apply Hreverse. fold reverse. rewrite Hr.
    repeat constructor; eexists; reflexivity.
Defined.

(** ** Size of the requested windows *)

(** Every request of a forward scan spans at most 50,000 blocks; a request of
    a reverse scan spans at most 50,001. *)
Lemma scan_request_spans (cfg : Config) (client : Client) (clock : Z -> Z)
    (contractAddress networkKey : string) (limit : Limit)
    (merchantAddress : option string) :
  Forall (fun q => 1 <= span q <= 50000)
    (forwardScan cfg client contractAddress networkKey merchantAddress).1 /\
  Forall (fun q => 1 <= span q <= 50001)
    (reverseScan cfg client clock contractAddress networkKey limit
       merchantAddress).1.
Proof.
  unfold forwardScan, reverseScan. destruct (getBlockNumber client); simpl.
  - split; [apply forwardLoop_spans|apply reverseLoop_spans].
  - split; constructor.
Qed.

(** C8, at height 100000 with deployment block 0 (the default of a network
    without a configured deployment block): the first request of the reverse
    scan is [[50000, 100000]], a window of 50,001 blocks, one more than the
    50,000 the forward scan keeps to. *)
Theorem reverse_scan_window_exceeds_50000 :
  let client := Sample.node 100000 [] in
  (reverseScan Sample.cfg client Sample.clock "0x3333" "mordor" All None).1
  = [Build_Query 50000 100000; Build_Query 0 49999] /\
  span (Build_Query 50000 100000) = 50001 /\
  (forwardScan Sample.cfg client "0x3333" "mordor" None).1
  = [Build_Query 0 49999; Build_Query 50000 99999; Build_Query 100000 100000].
Proof. vm_compute. repeat split; reflexivity. Qed.

(** ** Isolation of a failing network *)

Lemma fetchEventsFromNetwork_eventsOf cfg client contractAddress networkKey
    merchantAddress :
  fetchEventsFromNetwork cfg client contractAddress networkKey merchantAddress
  = Ok (eventsOf (forwardScan cfg client contractAddress networkKey
                    merchantAddress).2).
Proof.
  unfold fetchEventsFromNetwork, try_catch, eventsOf.
  destruct (forwardScan _ _ _ _ _).2; reflexivity.
Qed.

(** C1. Whatever the outcomes of the three forward scans, events or an
    exception each, [fetchStableCoinPurchases] does not throw: it returns the
    events of the scans that succeeded, in the order sepolia, ethereum-classic,
    mordor, a scan that threw contributing nothing. *)
Theorem fetchStableCoinPurchases_isolates_failures (cfg : Config)
    (svc : TransactionService) (merchantAddress : option string)
    (sepolia etc mordor : result (list TransactionEvent)) :
  (forwardScan cfg (sepoliaClient svc) (CONTRACTS_stablepay cfg) "sepolia"
     merchantAddress).2 = sepolia ->
  (forwardScan cfg (etcClient svc) (CONTRACTS_stablepay_etc cfg)
     "ethereum-classic" merchantAddress).2 = etc ->
  (forwardScan cfg (mordorClient svc) (CONTRACTS_stablepay_mordor cfg) "mordor"
     merchantAddress).2 = mordor ->
  fetchStableCoinPurchases cfg svc merchantAddress
  = Ok (eventsOf sepolia ++ eventsOf etc ++ eventsOf mordor).
Proof.
  intros <- <- <-. unfold fetchStableCoinPurchases.
  rewrite !fetchEventsFromNetwork_eventsOf. reflexivity.
Qed.

(** Five events on sepolia, an RPC error on ethereum-classic, three events on
    mordor: eight events, and no exception. *)
Lemma fetchStableCoinPurchases_isolates_failures_witness :
  exists sepolia e mordor events,
    (forwardScan Sample.cfg (sepoliaClient Sample.service)
       (CONTRACTS_stablepay Sample.cfg) "sepolia" None).2 = Ok sepolia /\
    length sepolia = 5%nat /\
    (forwardScan Sample.cfg (etcClient Sample.service)
       (CONTRACTS_stablepay_etc Sample.cfg) "ethereum-classic" None).2 = Throw e /\
    (forwardScan Sample.cfg (mordorClient Sample.service)
       (CONTRACTS_stablepay_mordor Sample.cfg) "mordor" None).2 = Ok mordor /\
    length mordor = 3%nat /\
    fetchStableCoinPurchases Sample.cfg Sample.service None = Ok events /\
    length events = 8%nat.
Proof.
  exists Sample.sepoliaEvents, "RpcRequestError: HTTP request failed",
    Sample.mordorEvents, (Sample.sepoliaEvents ++ Sample.mordorEvents).
  split; [vm_compute; reflexivity|].
  split; [vm_compute; reflexivity|].
  split; [vm_compute; reflexivity|].
  split; [vm_compute; reflexivity|].
  split; [vm_compute; reflexivity|].
  split; [|vm_compute; reflexivity].
  refine (eq_trans
            (fetchStableCoinPurchases_isolates_failures Sample.cfg Sample.service
               None _ _ _ eq_refl eq_refl eq_refl) _).
  vm_compute. reflexivity.
Defined.

(** ** The timestamp resolver *)

Lemma elem_of_unique (l : list Z) x : x ∈ JS.unique l <-> x ∈ l.
Proof.
  unfold JS.unique.
  enough (forall acc, x ∈ foldl (fun acc y => if decide (y ∈ acc) then acc else acc ++ [y]) acc l
                      <-> x ∈ acc \/ x ∈ l) as H.
  { rewrite H. split; [intros [Hin|Hin]; [|exact Hin]|auto].
    exfalso. revert Hin. apply not_elem_of_nil. }
  induction l as [|y l IH]; intros acc; simpl.
  - split; [auto|intros [H|H]; [exact H|]].
    exfalso. revert H. apply not_elem_of_nil.
  - rewrite IH. destruct (decide (y ∈ acc)) as [Hy|Hy].
    + rewrite elem_of_cons. split; [tauto|]. intros [H|[->|H]]; auto.
    + rewrite elem_of_app, (elem_of_cons l), list_elem_of_singleton. tauto.
Qed.

Section Resolver.
Context (client : Client) (clock : Z -> Z).

Lemma getBlockTimestamp_resolved bn :
  getBlockTimestamp client (clock bn) bn = Ok (resolvedTime client clock bn).
Proof.
  unfold getBlockTimestamp, resolvedTime. destruct (getBlock client bn); reflexivity.
Qed.

Lemma resolveBatch_stores batch :
  forall m, resolveBatch client clock batch m = Ok (foldl (storeResolved client clock) m batch).
Proof.
  induction batch as [|bn batch IH]; intros m; simpl; [reflexivity|].
  rewrite getBlockTimestamp_resolved. simpl. apply IH.
Qed.

Lemma resolveBatches_for uniqueBlocks i m :
  resolveBatches client clock uniqueBlocks i m =
  if decide (i < length uniqueBlocks)%nat then
    let batch := JS.slice (Z.of_nat i) (Z.of_nat i + 20) uniqueBlocks in
    let* m' := resolveBatch client clock batch m in
    resolveBatches client clock uniqueBlocks (i + 20) m'
  else Ok m.
Proof.
  simp resolveBatches. destruct (decide (i < length uniqueBlocks)%nat); reflexivity.
Qed.

Lemma slice_batch {A} (l : list A) (i : nat) :
  (i < length l)%nat ->
  JS.slice (Z.of_nat i) (Z.of_nat i + 20) l = take 20 (drop i l).
Proof.
  intros Hi. unfold JS.slice, JS.rel_index.
  destruct (Z.ltb_spec (Z.of_nat i) 0); [lia|].
  destruct (Z.ltb_spec (Z.of_nat i + 20) 0); [lia|].
  rewrite Nat2Z.id. replace (Nat.min i (length l)) with i by lia.
  destruct (decide (i + 20 <= length l)%nat).
  - f_equal. lia.
  - rewrite !take_ge; [reflexivity| |]; rewrite length_drop; lia.
Qed.

Lemma resolveBatches_stores uniqueBlocks :
  forall n i m,
    (length uniqueBlocks - i)%nat = n ->
    resolveBatches client clock uniqueBlocks i m
    = Ok (foldl (storeResolved client clock) m (drop i uniqueBlocks)).
Proof.
  induction n as [n IH] using lt_wf_ind. intros i m Hn.
  rewrite resolveBatches_for. destruct (decide (i < length uniqueBlocks)%nat) as [Hi|Hi].
  - cbv zeta. rewrite resolveBatch_stores. simpl.
    erewrite IH; [| |reflexivity]; [|lia].
    rewrite slice_batch by exact Hi.
    replace (drop (i + 20) uniqueBlocks) with (drop 20 (drop i uniqueBlocks))
      by (rewrite drop_drop; f_equal; lia).
    rewrite <- foldl_app, take_drop. reflexivity.
  - rewrite drop_ge by lia. reflexivity.
Qed.

Lemma lookup_foldl_store l bn :
  forall m, foldl (storeResolved client clock) m l !! bn
            = if decide (bn ∈ l) then Some (resolvedTime client clock bn) else m !! bn.
Proof.
  induction l as [|x l IH]; intros m; cbn [foldl].
  - rewrite decide_False by apply not_elem_of_nil. reflexivity.
  - rewrite IH. unfold storeResolved.
    destruct (decide (bn ∈ l)) as [Hin|Hin].
    + rewrite decide_True by (apply elem_of_cons; auto). reflexivity.
    + destruct (decide (bn = x)) as [->|Hne].
      * rewrite decide_True by (apply elem_of_cons; auto). apply lookup_insert_eq.
      * rewrite decide_False by (rewrite elem_of_cons; tauto).
        apply lookup_insert_ne. congruence.
Qed.

(** What [attachTimestamps] returns: it never throws, and every event gets
    the resolved time of its block. *)
Lemma attachTimestamps_resolved events :
  attachTimestamps client clock events = Ok (map (resolved client clock) events).
Proof.
  unfold attachTimestamps, resolved.
  erewrite resolveBatches_stores by reflexivity. simpl. f_equal.
  apply map_ext_in. intros e He. f_equal.
  rewrite lookup_foldl_store.
  rewrite decide_True; [reflexivity|].
  apply elem_of_unique. apply list_elem_of_In. apply in_map. exact He.
Qed.

End Resolver.

(** C7. [attachTimestamps] completes whatever the block lookups do: it
    returns as many events as it was given, and the event at each index
    carries a timestamp. When the lookup of its block throws, the timestamp
    is the wall clock; when it succeeds, it is the [Date] made of the time
    the block reports: that time in milliseconds when it is within the range
    of a [Date], the Invalid Date when it is beyond it or absent. A failed
    lookup changes nothing for the other events. *)
Theorem attachTimestamps_survives_lookup_failures (client : Client)
    (clock : Z -> Z) (events : list TransactionEvent) :
  exists resolved,
    attachTimestamps client clock events = Ok resolved /\
    length resolved = length events /\
    forall i e, events !! i = Some e ->
      exists e', resolved !! i = Some e' /\
        timestamp e' =
          Some (match getBlock client (blockNumber e) with
                | Ok block =>
                    JS.newDate (JS.Number_times_1000 (block_timestamp block))
                | Throw _ => JS.DateAt (clock (blockNumber e))
                end) /\
        (forall err,
            getBlock client (blockNumber e) = Throw err ->
            timestamp e' = Some (JS.DateAt (clock (blockNumber e)))) /\
        (forall seconds,
            getBlock client (blockNumber e)
            = Ok {| block_timestamp := Some seconds |} ->
            timestamp e'
            = Some (if Z.abs seconds <=? 8640000000000
                    then JS.DateAt (seconds * 1000) else JS.InvalidDate)).
Proof.
  eexists. split; [apply attachTimestamps_resolved|].
  split; [apply length_map|].
  intros i e Hi. eexists. split.
  - change (@map) with (@fmap list _). rewrite list_lookup_fmap, Hi. reflexivity.
  - cbn [timestamp resolved]. unfold resolvedTime.
    split; [reflexivity|]. split.
    + intros err ->. reflexivity.
    + intros seconds ->. cbn [block_timestamp JS.Number_times_1000 JS.newDate].
      f_equal. unfold JS.maxTimeValue.
      destruct (Z.leb_spec (Z.abs (seconds * 1000)) 8640000000000000);
        destruct (Z.leb_spec (Z.abs seconds) 8640000000000); try reflexivity; lia.
Qed.

(** The three mordor sample events on a node whose block lookups fail below
    block 100: the event of block 5 gets the wall clock, the two others the
    time of their blocks. *)
Lemma attachTimestamps_survives_lookup_failures_witness :
  exists resolved,
    attachTimestamps (Sample.flaky 70000 []) Sample.clock Sample.mordorEvents
    = Ok resolved /\
    map blockNumber resolved = [5; 50000; 69999] /\
    map timestamp resolved
    = [Some (JS.DateAt 1762000000000); Some (JS.DateAt 1700600000000);
       Some (JS.DateAt 1700839988000)].
Proof.
  destruct (attachTimestamps_survives_lookup_failures (Sample.flaky 70000 [])
              Sample.clock Sample.mordorEvents) as (resolved & Hresolved & _ & _).
  exists resolved. split; [exact Hresolved|].
  vm_compute in Hresolved. injection Hresolved as <-. split; reflexivity.
Defined.

(** C9. [attachTimestamps] returns a list of the same length whose event at
    each index has the buyer, receiver, amounts, block number, transaction
    hash, chain id and network name of the input event at that index: only the
    timestamp is set. *)
Theorem attachTimestamps_changes_only_timestamp (client : Client)
    (clock : Z -> Z) (events : list TransactionEvent) :
  exists resolved,
    attachTimestamps client clock events = Ok resolved /\
    length resolved = length events /\
    Forall2 sameButTimestamp events resolved.
Proof.
  eexists. split; [apply attachTimestamps_resolved|].
  split; [apply length_map|].
  induction events as [|e events IH]; simpl; constructor.
  - repeat split.
  - exact IH.
Qed.

(** ** Strings and numerals *)

Section Numerals.

Lemma chars_str l : JS.chars (JS.str l) = l.
Proof. apply list_ascii_of_string_of_list_ascii. Qed.

Lemma str_chars s : JS.str (JS.chars s) = s.
Proof. apply string_of_list_ascii_of_string. Qed.

Lemma chars_append s1 s2 :
  JS.chars (s1 ++ s2)%string = JS.chars s1 ++ JS.chars s2.
Proof. induction s1 as [|c s1 IH]; simpl; [reflexivity|]. f_equal. exact IH. Qed.

Lemma str_app l1 l2 : JS.str (l1 ++ l2) = (JS.str l1 ++ JS.str l2)%string.
Proof.
  induction l1 as [|c l1 IH]; simpl; [reflexivity|]. rewrite IH. reflexivity.
Qed.

Lemma digit_value_range radix c d :
  JS.digit_value radix c = Some d -> 0 <= d < radix.
Proof.
  unfold JS.digit_value. set (n := Z.of_nat (nat_of_ascii c)).
  destruct (Z.leb_spec 48 n), (Z.leb_spec n 57); simpl;
    [destruct (Z.ltb_spec (n - 48) radix); intros [= <-]; lia|..];
    (destruct (Z.leb_spec 97 n), (Z.leb_spec n 122); simpl;
     [destruct (Z.ltb_spec (n - 87) radix); intros [= <-]; lia|..];
     (destruct (Z.leb_spec 65 n), (Z.leb_spec n 90); simpl;
      [destruct (Z.ltb_spec (n - 55) radix); intros [= <-]; lia|..]));
    discriminate.
Qed.

Lemma digits_value_acc_app radix l1 l2 :
  forall acc,
    JS.digits_value_acc radix acc (l1 ++ l2)
    = match JS.digits_value_acc radix acc l1 with
      | Some v => JS.digits_value_acc radix v l2
      | None => None
      end.
Proof.
  induction l1 as [|c l1 IH]; intros acc; simpl; [reflexivity|].
  destruct (JS.digit_value radix c); [apply IH|reflexivity].
Qed.

(** The accumulator enters the value linearly. *)
Lemma digits_value_acc_shift radix l :
  forall acc,
    JS.digits_value_acc radix acc l
    = match JS.digits_value radix l with
      | Some v => Some (acc * radix ^ Z.of_nat (length l) + v)
      | None => None
      end.
Proof.
  unfold JS.digits_value.
  induction l as [|c l IH]; intros acc; simpl JS.digits_value_acc.
  - f_equal. simpl. lia.
  - destruct (JS.digit_value radix c) as [d|]; [|reflexivity].
    rewrite (IH (radix * acc + d)), (IH (radix * 0 + d)).
    destruct (JS.digits_value_acc radix 0 l); [|reflexivity].
    f_equal. change (length (c :: l)) with (S (length l)).
    rewrite Nat2Z.inj_succ, Z.pow_succ_r by lia. ring.
Qed.

Lemma digits_value_range radix l v :
  0 < radix ->
  JS.digits_value radix l = Some v -> 0 <= v < radix ^ Z.of_nat (length l).
Proof.
  intros Hr. revert v. unfold JS.digits_value.
  induction l as [|c l IH]; intros v; simpl JS.digits_value_acc.
  - intros [= <-]. simpl. lia.
  - destruct (JS.digit_value radix c) as [d|] eqn:Hd; [|discriminate].
    apply digit_value_range in Hd.
    rewrite digits_value_acc_shift. unfold JS.digits_value.
    destruct (JS.digits_value_acc radix 0 l) as [v0|]; [|discriminate].
    specialize (IH v0 eq_refl). intros [= <-].
    change (length (c :: l)) with (S (length l)).
    rewrite Nat2Z.inj_succ, Z.pow_succ_r by lia. nia.
Qed.

Lemma digits_value_app radix l1 l2 :
  JS.digits_value radix (l1 ++ l2)
  = match JS.digits_value radix l1, JS.digits_value radix l2 with
    | Some v1, Some v2 => Some (v1 * radix ^ Z.of_nat (length l2) + v2)
    | _, _ => None
    end.
Proof.
  unfold JS.digits_value at 1. rewrite digits_value_acc_app.
  fold (JS.digits_value radix l1).
  destruct (JS.digits_value radix l1) as [v1|].
  - apply digits_value_acc_shift.
  - destruct (JS.digits_value radix l2); reflexivity.
Qed.

Lemma digits_value_chars radix l v :
  JS.digits_value radix l = Some v ->
  Forall (fun c => exists d, JS.digit_value radix c = Some d) l.
Proof.
  revert v. unfold JS.digits_value. generalize 0.
  induction l as [|c l IH]; intros acc v; simpl; [constructor|].
  destruct (JS.digit_value radix c) as [d|] eqn:Hd; [|discriminate].
  intros Hv. constructor; [eauto|]. exact (IH _ _ Hv).
Qed.

Lemma digits_value_zeros k : JS.digits_value 10 (replicate k "0"%char) = Some 0.
Proof.
  induction k as [|k IH]; [reflexivity|].
  change (replicate (S k) "0"%char) with (["0"%char] ++ replicate k "0"%char).
  rewrite digits_value_app, IH. reflexivity.
Qed.

(** *** Decimal numerals *)

Lemma digit_value_digit_char d :
  0 <= d < 10 -> JS.digit_value 10 (JS.digit_char d) = Some d.
Proof.
  intros Hd.
  assert (d = 0 \/ d = 1 \/ d = 2 \/ d = 3 \/ d = 4 \/ d = 5 \/ d = 6 \/ d = 7 \/
          d = 8 \/ d = 9) as H by lia.
  repeat destruct H as [->|H]; try subst d; reflexivity.
Qed.

Lemma decimal_digits_app fuel :
  forall n acc,
    JS.decimal_digits fuel n acc = JS.decimal_digits fuel n [] ++ acc.
Proof.
  induction fuel as [|fuel IH]; intros n acc; simpl; [reflexivity|].
  destruct (n <? 10); [reflexivity|].
  rewrite (IH _ (_ :: acc)), (IH _ [_]), <- app_assoc. reflexivity.
Qed.

Lemma decimal_digits_value fuel :
  forall n, 0 <= n < 10 ^ Z.of_nat (S fuel) ->
            JS.digits_value 10 (JS.decimal_digits fuel n []) = Some n.
Proof.
  induction fuel as [|fuel IH]; intros n Hn.
  - simpl. change (10 ^ Z.of_nat 1) with 10 in Hn.
    rewrite Z.mod_small by lia.
    unfold JS.digits_value. simpl. rewrite digit_value_digit_char by lia.
    f_equal.
  - cbn [JS.decimal_digits]. destruct (Z.ltb_spec n 10) as [Hlt|Hge].
    + rewrite Z.mod_small by lia.
      unfold JS.digits_value. simpl. rewrite digit_value_digit_char by lia.
      f_equal.
    + rewrite decimal_digits_app, digits_value_app.
      rewrite Nat2Z.inj_succ, Z.pow_succ_r in Hn by lia.
      rewrite IH by (split; [apply Z.div_pos; lia|apply Z.div_lt_upper_bound; lia]).
      unfold JS.digits_value at 1. simpl JS.digits_value_acc.
      rewrite digit_value_digit_char by (apply Z.mod_pos_bound; lia).
      f_equal. simpl length. change (10 ^ Z.of_nat 1) with 10.
      pose proof (Z.div_mod n 10 ltac:(lia)). lia.
Qed.

Lemma toString_value n :
  0 <= n -> JS.digits_value 10 (JS.toString n) = Some n.
Proof.
  intros Hn. unfold JS.toString. destruct (Z.ltb_spec n 0); [lia|].
  apply decimal_digits_value. split; [exact Hn|].
  destruct (decide (n = 0)) as [->|Hne]; [reflexivity|].
  rewrite Nat2Z.inj_succ, Z2Nat.id by apply Z.log2_nonneg.
  pose proof (Z.log2_spec n ltac:(lia)) as [_ Hlog].
  eapply Z.lt_le_trans; [exact Hlog|].
  apply Z.pow_le_mono_l. lia.
Qed.

(** *** Reading a rendered amount back *)

Lemma strip_trailing_zeros_split l :
  exists k, l = JS.strip_trailing_zeros l ++ replicate k "0"%char.
Proof.
  unfold JS.strip_trailing_zeros.
  assert (forall r : list ascii,
             exists k, r = replicate k "0"%char
                           ++ JS.drop_while (fun c => if ascii_dec c "0" then true else false) r)
    as Hdrop.
  { induction r as [|c r [k IH]]; [exists 0%nat; reflexivity|]. simpl.
    destruct (ascii_dec c "0") as [->|_].
    - exists (S k). simpl. f_equal. exact IH.
    - exists 0%nat. reflexivity. }
  destruct (Hdrop (reverse l)) as [k Hk]. exists k.
  rewrite <- (reverse_involutive l) at 1. rewrite Hk at 1.
  rewrite reverse_app, reverse_replicate. reflexivity.
Qed.

Lemma splitPoint_app integer rest :
  Forall (fun c => c <> "."%char) integer ->
  splitPoint (integer ++ rest)
  = (integer ++ (splitPoint rest).1, (splitPoint rest).2).
Proof.
  induction 1 as [|c integer Hc _ IH]; simpl; [destruct (splitPoint rest); reflexivity|].
  destruct (ascii_dec c "."); [contradiction|]. rewrite IH. reflexivity.
Qed.

Lemma digits_have_no_point l v :
  JS.digits_value 10 l = Some v -> Forall (fun c => c <> "."%char) l.
Proof.
  intros H. apply digits_value_chars in H.
  eapply Forall_impl; [exact H|]. intros c [d Hd] ->. discriminate.
Qed.

(** The last three lines of [formatUnits]: an integer part and [decimals]
    fraction digits that together write [value] are rendered as a numeral
    that denotes [value / 10^decimals]. *)
Lemma rendered_amount_exact integer fraction value decimals :
  JS.digits_value 10 (integer ++ fraction) = Some value ->
  length fraction = decimals ->
  denotesScaled
    (JS.str ((match integer with [] => ["0"%char] | _ => integer end)
             ++ match JS.strip_trailing_zeros fraction with
                | [] => []
                | _ => "."%char :: JS.strip_trailing_zeros fraction
                end))
    value decimals.
Proof.
  intros Hvalue <-. unfold denotesScaled, fixedPoint. rewrite chars_str.
  destruct (strip_trailing_zeros_split fraction) as [k Hk].
  set (f := JS.strip_trailing_zeros fraction) in *.
  rewrite Hk, !digits_value_app, digits_value_zeros in Hvalue.
  destruct (JS.digits_value 10 integer) as [vi|] eqn:Hvi; [|discriminate].
  destruct (JS.digits_value 10 f) as [vf|] eqn:Hvf; [|discriminate].
  injection Hvalue as <-.
  set (shown := match integer with [] => ["0"%char] | _ => integer end).
  assert (Hshown : JS.digits_value 10 shown = Some vi).
  { subst shown. destruct integer; [|exact Hvi].
    injection Hvi as <-. reflexivity. }
  assert (Hne : shown <> []) by (subst shown; destruct integer; discriminate).
  assert (Hlen : length fraction = (length f + k)%nat)
    by (rewrite Hk at 1; rewrite length_app, length_replicate; reflexivity).
  rewrite splitPoint_app by (eapply digits_have_no_point; exact Hshown).
  rewrite length_app, !length_replicate, Nat2Z.inj_add, Z.pow_add_r by lia.
  destruct f as [|c f'] eqn:Hf.
  - simpl splitPoint. simpl fst. simpl snd. rewrite app_nil_r.
    destruct shown; [contradiction|]. rewrite Hshown.
    exists vi, 0%nat. split; [reflexivity|]. split; [lia|].
    injection Hvf as <-. rewrite Hlen. simpl length.
    replace (0 + k - 0)%nat with k by lia.
    change (Z.of_nat 0) with 0. rewrite Z.pow_0_r. ring.
  - simpl splitPoint. simpl fst. simpl snd. rewrite app_nil_r.
    destruct shown eqn:Hs; [contradiction|]. rewrite <- Hs in *.
    rewrite digits_value_app, Hshown, Hvf.
    eexists _, _. split; [reflexivity|]. split; [lia|].
    rewrite Hlen. replace (length (c :: f') + k - length (c :: f'))%nat with k by lia.
    ring.
Qed.

End Numerals.

(** ** Address normalisation *)

Lemma replace_at_start pat by_ s :
  String.prefix pat s = true ->
  JS.replace pat by_ s
  = (by_ ++ JS.str_slice_from (Z.of_nat (String.length pat)) s)%string.
Proof. intros H. destruct s; cbn [JS.replace]; rewrite H; reflexivity. Qed.

Lemma str_slice_from_0x (word : list ascii) :
  JS.str_slice_from 2 ("0x" ++ JS.str word)%string = JS.str word.
Proof.
  unfold JS.str_slice_from, JS.slice_from, JS.rel_index.
  rewrite chars_append, chars_str. reflexivity.
Qed.

Lemma formatAddress_prefixed (word : list ascii) :
  formatAddress ("0x" ++ JS.str word)%string
  = ("0x" ++ JS.str (JS.slice_from (-40) word))%string.
Proof.
  unfold formatAddress. f_equal.
  rewrite replace_at_start by (destruct word; reflexivity).
  change (Z.of_nat (String.length "0x")) with 2. rewrite str_slice_from_0x.
  change ("" ++ JS.str word)%string with (JS.str word). unfold JS.str_slice_from. rewrite chars_str. reflexivity.
Qed.

(** [formatAddress] on a word of 32 bytes: the last 40 digits, as they are
    written. *)
Lemma formatAddress_word (word : list ascii) (value : Z) :
  length word = 64%nat ->
  JS.digits_value 16 word = Some value ->
  formatAddress ("0x" ++ JS.str word)%string = ("0x" ++ JS.str (drop 24 word))%string /\
  length (drop 24 word) = 40%nat /\
  JS.digits_value 16 (drop 24 word) = Some (value mod 2 ^ 160) /\
  (forallb lowerHex word = true -> forallb lowerHex (drop 24 word) = true).
Proof.
  intros Hlen Hvalue. rewrite formatAddress_prefixed.
  assert (JS.slice_from (-40) word = drop 24 word) as ->.
  { unfold JS.slice_from, JS.rel_index. rewrite Hlen. reflexivity. }
  split; [reflexivity|].
  assert (Hl : length (drop 24 word) = 40%nat) by (rewrite length_drop; lia).
  split; [exact Hl|]. split.
  - rewrite <- (take_drop 24 word), digits_value_app in Hvalue.
    destruct (JS.digits_value 16 (take 24 word)) as [hi|]; [|discriminate].
    destruct (JS.digits_value 16 (drop 24 word)) as [lo|] eqn:Hlo; [|discriminate].
    apply digits_value_range in Hlo; [|lia].
    injection Hvalue as <-. rewrite Hl in *. f_equal.
    change (16 ^ Z.of_nat 40) with (2 ^ 160) in *.
    rewrite Z.add_comm, Z.mod_add by lia. symmetry. apply Z.mod_small. exact Hlo.
  - rewrite <- (take_drop 24 word) at 1. rewrite forallb_app.
    intros [_ H]%andb_prop. exact H.
Qed.


(** The addresses of a decoded event are [formatAddress] of the second and
    of the third topic of its log. *)
Lemma decodeEvent_addresses network event e :
  decodeEvent network event = Ok e ->
  exists buyerTopic receiverTopic,
    topics event !! 1%nat = Some buyerTopic /\
    topics event !! 2%nat = Some receiverTopic /\
    buyer e = formatAddress buyerTopic /\
    receiver e = formatAddress receiverTopic.
Proof.
  unfold decodeEvent.
  destruct (topics event !! 1%nat) as [buyerTopic|]; [|discriminate].
  destruct (topics event !! 2%nat) as [receiverTopic|]; [|discriminate]. simpl.
  destruct (JS.BigInt _); [|discriminate]. simpl.
  destruct (JS.BigInt _); [|discriminate]. simpl.
  destruct network; [|discriminate].
  intros [= <-]. exists buyerTopic, receiverTopic. repeat split; reflexivity.
Qed.

(** ** Decoding of the amounts *)

Lemma slice_0_take {A} (l : list A) (k : Z) :
  0 <= k <= Z.of_nat (length l) -> JS.slice 0 k l = take (Z.to_nat k) l.
Proof.
  intros Hk. unfold JS.slice, JS.rel_index.
  change (0 <? 0) with false. cbv iota.
  destruct (Z.ltb_spec k 0); [lia|]. rewrite drop_0. f_equal. lia.
Qed.

Lemma slice_from_drop {A} (l : list A) (k : Z) :
  0 <= k <= Z.of_nat (length l) -> JS.slice_from k l = drop (Z.to_nat k) l.
Proof.
  intros Hk. unfold JS.slice_from, JS.rel_index.
  destruct (Z.ltb_spec k 0); [lia|]. f_equal. lia.
Qed.

Lemma toString_not_negative n :
  0 <= n -> JS.startsWith "-" (JS.toString n) = false.
Proof.
  intros Hn. pose proof (toString_value n Hn) as H.
  apply digits_value_chars in H.
  destruct (JS.toString n) as [|c l]; [reflexivity|]. simpl.
  destruct (ascii_dec c "-") as [->|_]; [|reflexivity].
  apply Forall_cons in H as [[d Hd] _]. discriminate.
Qed.

(** [formatUnits] renders a non-negative raw amount exactly. *)
Lemma formatUnits_exact (value : Z) (decimals : nat) :
  0 <= value -> denotesScaled (formatUnits value decimals) value decimals.
Proof.
  intros Hv. unfold formatUnits.
  rewrite toString_not_negative by exact Hv. cbv iota.
  set (display := JS.padStart decimals "0" (JS.toString value)).
  assert (Hdisplay : JS.digits_value 10 display = Some value).
  { subst display. unfold JS.padStart.
    rewrite digits_value_app, digits_value_zeros, toString_value by exact Hv.
    f_equal. }
  assert (Hlen : (decimals <= length display)%nat).
  { subst display. unfold JS.padStart. rewrite length_app, length_replicate. lia. }
  rewrite slice_0_take, slice_from_drop by lia.
  set (n := Z.to_nat (Z.of_nat (length display) - Z.of_nat decimals)).
  change ([] ++ ?l) with l.
  apply (rendered_amount_exact (take n display) (drop n display)).
  - rewrite take_drop. exact Hdisplay.
  - rewrite length_drop. lia.
Qed.

Lemma digit_is_not_space c d :
  JS.digit_value 16 c = Some d -> JS.is_space c = false.
Proof.
  destruct c as [[] [] [] [] [] [] [] []]; vm_compute; intros H;
    first [reflexivity | discriminate H].
Qed.

Lemma drop_while_head {A} (p : A -> bool) (l : list A) :
  match l with [] => True | x :: _ => p x = false end ->
  JS.drop_while p l = l.
Proof. destruct l as [|x l]; [reflexivity|]. simpl. intros ->. reflexivity. Qed.

(** [BigInt] of [0x] and a non-empty word of hexadecimal digits is the value
    of the word. *)
Lemma BigInt_hex (word : list ascii) (value : Z) :
  word <> [] ->
  JS.digits_value 16 word = Some value ->
  JS.BigInt ("0x" ++ JS.str word)%string = Ok value.
Proof.
  intros Hne Hvalue. unfold JS.BigInt.
  rewrite chars_append, chars_str.
  change (JS.chars "0x") with ["0"%char; "x"%char].
  assert (Hspace : Forall (fun c => JS.is_space c = false)
                     (["0"%char; "x"%char] ++ word)).
  { apply Forall_app. split; [repeat constructor|].
    eapply Forall_impl; [exact (digits_value_chars _ _ _ Hvalue)|].
    intros c [d Hd]. exact (digit_is_not_space _ _ Hd). }
  unfold JS.trim_start. rewrite drop_while_head by reflexivity.
  unfold JS.trim_end. rewrite drop_while_head.
  - rewrite reverse_involutive. simpl.
    unfold JS.nonempty_digits. rewrite Hvalue.
    destruct word; [contradiction|reflexivity].
  - apply Forall_reverse in Hspace.
    destruct (reverse _) as [|x r]; [exact I|].
    apply Forall_cons in Hspace as [Hx _]. exact Hx.
Qed.

(** The two words of the data field. *)
Lemma data_words (sc bc : list ascii) :
  length sc = 64%nat ->
  let rawData := JS.str_slice_from 2 ("0x" ++ JS.str (sc ++ bc))%string in
  JS.str_slice 0 64 rawData = JS.str sc /\
  JS.str_slice_from 64 rawData = JS.str bc.
Proof.
  intros Hsc rawData. subst rawData. rewrite str_slice_from_0x.
  unfold JS.str_slice, JS.str_slice_from. rewrite chars_str.
  rewrite slice_0_take, slice_from_drop by (rewrite length_app; lia).
  change (Z.to_nat 64) with 64%nat.
  rewrite take_app_length', drop_app_length' by (symmetry; exact Hsc).
  split; reflexivity.
Qed.

(** C6. A raw log whose data field is two 32-byte words decodes to an event
    whose stable-coin amount renders the integer of the first word at 6
    decimals and whose base-coin amount renders the integer of the second
    word at 18 decimals; each rendering is a plain decimal numeral, digits
    and at most one point, that denotes the raw integer divided by [10^6]
    (by [10^18]) exactly. The raw integer 123456789 decodes to
    ["123.456789"] and the raw integer 0 to ["0"]. *)
Theorem decodeEvent_amounts_exact (network : NetworkConfig) (event : RawLog)
    (sc bc : list ascii) (rawSC rawBC : Z) :
  data event = ("0x" ++ JS.str (sc ++ bc))%string ->
  length sc = 64%nat ->
  length bc = 64%nat ->
  JS.digits_value 16 sc = Some rawSC ->
  JS.digits_value 16 bc = Some rawBC ->
  (2 < length (topics event))%nat ->
  exists e,
    decodeEvent (Some network) event = Ok e /\
    amountSC e = formatUnits rawSC 6 /\
    denotesScaled (amountSC e) rawSC 6 /\
    amountBC e = formatUnits rawBC 18 /\
    denotesScaled (amountBC e) rawBC 18 /\
    (rawSC = 123456789 -> amountSC e = "123.456789") /\
    (rawSC = 0 -> amountSC e = "0").
Proof.
  intros Hdata Hsc Hbc Hraw_sc Hraw_bc Htopics.
  unfold decodeEvent. rewrite Hdata.
  destruct (data_words sc bc Hsc) as [-> ->].
  destruct (lookup_lt_is_Some_2 (topics event) 1 ltac:(lia)) as [t1 ->].
  destruct (lookup_lt_is_Some_2 (topics event) 2 ltac:(lia)) as [t2 ->].
  rewrite (BigInt_hex sc rawSC), (BigInt_hex bc rawBC);
    try assumption; try (intros ->; discriminate).
  simpl. eexists. split; [reflexivity|]. simpl.
  pose proof (digits_value_range 16 sc rawSC ltac:(lia) Hraw_sc) as [Hsc0 _].
  pose proof (digits_value_range 16 bc rawBC ltac:(lia) Hraw_bc) as [Hbc0 _].
  split; [reflexivity|]. split; [apply formatUnits_exact; exact Hsc0|].
  split; [reflexivity|]. split; [apply formatUnits_exact; exact Hbc0|].
  split; intros ->; reflexivity.
Qed.

(** The sample purchase: 0x75bcd15 = 123456789 units of the stable coin and
    0xde0b6b3a7640000 = 10^18 units of the base coin. *)
Lemma decodeEvent_amounts_exact_witness :
  exists e,
    decodeEvent (NETWORKS Sample.cfg "sepolia") (Sample.purchase 1500) = Ok e /\
    amountSC e = "123.456789" /\ denotesScaled "123.456789" 123456789 6 /\
    amountBC e = "1" /\ denotesScaled "1" (10 ^ 18) 18.
Proof.
  destruct (decodeEvent_amounts_exact
              {| net_chainId := 11155111; net_name := "Sepolia" |}
              (Sample.purchase 1500)
              (JS.chars "00000000000000000000000000000000000000000000000000000000075bcd15")
              (JS.chars "0000000000000000000000000000000000000000000000000de0b6b3a7640000")
              123456789 (10 ^ 18)
              eq_refl eq_refl eq_refl eq_refl eq_refl ltac:(simpl; lia))
    as (e & He & Hsc & Hsc_exact & Hbc & Hbc_exact & _).
  exists e. rewrite Hsc in Hsc_exact. rewrite Hbc in Hbc_exact.
  split; [exact He|]. split; [exact Hsc|]. split; [exact Hsc_exact|].
  split; [exact Hbc|exact Hbc_exact].
Defined.

(** ** The addresses of a decoded event *)

(** A log with its three topics and a data field of two words decodes. *)
Lemma decodeEvent_two_words (network : NetworkConfig) (event : RawLog)
    (sc bc : list ascii) (rawSC rawBC : Z) :
  (2 < length (topics event))%nat ->
  data event = ("0x" ++ JS.str (sc ++ bc))%string ->
  length sc = 64%nat ->
  length bc = 64%nat ->
  JS.digits_value 16 sc = Some rawSC ->
  JS.digits_value 16 bc = Some rawBC ->
  exists e, decodeEvent (Some network) event = Ok e.
Proof.
  intros Htopics Hdata Hsc Hbc Hraw_sc Hraw_bc.
  unfold decodeEvent. rewrite Hdata.
  destruct (data_words sc bc Hsc) as [-> ->].
  destruct (lookup_lt_is_Some_2 (topics event) 1 ltac:(lia)) as [t1 ->].
  destruct (lookup_lt_is_Some_2 (topics event) 2 ltac:(lia)) as [t2 ->].
  rewrite (BigInt_hex sc rawSC), (BigInt_hex bc rawBC);
    try assumption; try (intros ->; discriminate).
  simpl. eexists. reflexivity.
Qed.

(** C5, as amended. For a topic of 32 bytes, [0x] and 64 hexadecimal digits,
    [formatAddress] returns [0x] followed by the last 40 digits of the topic,
    the low 20 bytes, each digit as the topic writes it: the letter case is
    kept, so the result is lowercase when the topic's digits are. The
    decoder applies it to the second and to the third topic of a log: an
    event decoded from a log whose second (third) topic is that topic has
    this address as its buyer (receiver), and a log with its three topics and
    a data field of two words does decode. *)
Theorem formatAddress_keeps_low_20_bytes (word : list ascii) (value : Z) :
  length word = 64%nat ->
  JS.digits_value 16 word = Some value ->
  formatAddress ("0x" ++ JS.str word)%string = ("0x" ++ JS.str (drop 24 word))%string /\
  length (drop 24 word) = 40%nat /\
  JS.digits_value 16 (drop 24 word) = Some (value mod 2 ^ 160) /\
  (forallb lowerHex word = true -> forallb lowerHex (drop 24 word) = true) /\
  (forall (network : option NetworkConfig) (event : RawLog) (e : TransactionEvent),
      decodeEvent network event = Ok e ->
      (topics event !! 1%nat = Some ("0x" ++ JS.str word)%string ->
       buyer e = ("0x" ++ JS.str (drop 24 word))%string) /\
      (topics event !! 2%nat = Some ("0x" ++ JS.str word)%string ->
       receiver e = ("0x" ++ JS.str (drop 24 word))%string)) /\
  (forall (network : NetworkConfig) (event : RawLog) (sc bc : list ascii)
          (rawSC rawBC : Z),
      (2 < length (topics event))%nat ->
      data event = ("0x" ++ JS.str (sc ++ bc))%string ->
      length sc = 64%nat ->
      length bc = 64%nat ->
      JS.digits_value 16 sc = Some rawSC ->
      JS.digits_value 16 bc = Some rawBC ->
      exists e,
        decodeEvent (Some network) event = Ok e /\
        (topics event !! 1%nat = Some ("0x" ++ JS.str word)%string ->
         buyer e = ("0x" ++ JS.str (drop 24 word))%string) /\
        (topics event !! 2%nat = Some ("0x" ++ JS.str word)%string ->
         receiver e = ("0x" ++ JS.str (drop 24 word))%string)).
Proof.
  intros Hlen Hvalue.
  destruct (formatAddress_word word value Hlen Hvalue)
    as (Hfmt & Hforty & Hlow & Hlower).
  assert (Hdecoded : forall network event e,
             decodeEvent network event = Ok e ->
             (topics event !! 1%nat = Some ("0x" ++ JS.str word)%string ->
              buyer e = ("0x" ++ JS.str (drop 24 word))%string) /\
             (topics event !! 2%nat = Some ("0x" ++ JS.str word)%string ->
              receiver e = ("0x" ++ JS.str (drop 24 word))%string)).
  { intros network event e He.
    destruct (decodeEvent_addresses network event e He)
      as (buyerTopic & receiverTopic & Hb & Hr & -> & ->).
    rewrite Hb, Hr. split; intros [= ->]; exact Hfmt. }
  split; [exact Hfmt|]. split; [exact Hforty|]. split; [exact Hlow|].
  split; [exact Hlower|]. split; [exact Hdecoded|].
  intros network event sc bc rawSC rawBC Htopics Hdata Hsc Hbc Hraw_sc Hraw_bc.
  destruct (decodeEvent_two_words network event sc bc rawSC rawBC Htopics Hdata
              Hsc Hbc Hraw_sc Hraw_bc) as [e He].
  exists e. split; [exact He|]. exact (Hdecoded _ _ _ He).
Qed.

(** The second topic of the sepolia sample purchase, written in lowercase,
    and the buyer of the event decoded from that log. *)
Lemma formatAddress_keeps_low_20_bytes_witness :
  formatAddress "0x00000000000000000000000012345678901234567890abcdefabcdefabcdefab"
  = "0x12345678901234567890abcdefabcdefabcdefab" /\
  forallb lowerHex (JS.chars "12345678901234567890abcdefabcdefabcdefab") = true /\
  exists e,
    decodeEvent (NETWORKS Sample.cfg "sepolia") (Sample.purchase 1500) = Ok e /\
    buyer e = "0x12345678901234567890abcdefabcdefabcdefab".
Proof.
  pose (word := JS.chars
    "00000000000000000000000012345678901234567890abcdefabcdefabcdefab").
  destruct (formatAddress_keeps_low_20_bytes word
              0x12345678901234567890abcdefabcdefabcdefab eq_refl eq_refl)
    as (Hfmt & _ & _ & Hlower & _ & Hdecodes).
  split; [exact Hfmt|]. split; [apply Hlower; reflexivity|].
  destruct (Hdecodes
              {| net_chainId := 11155111; net_name := "Sepolia" |}
              (Sample.purchase 1500)
              (JS.chars "00000000000000000000000000000000000000000000000000000000075bcd15")
              (JS.chars "0000000000000000000000000000000000000000000000000de0b6b3a7640000")
              123456789 (10 ^ 18)
              ltac:(simpl; lia) eq_refl eq_refl eq_refl eq_refl eq_refl)
    as (e & He & Hbuyer & _).
  exists e. split; [exact He|]. apply Hbuyer. reflexivity.
Defined.

(** C5, as stated, fails on the topic of the spec's own example, the third
    topic of the sample purchase: [formatAddress] keeps the capitals of the
    topic, and so does the receiver of the decoded event. *)
Lemma formatAddress_does_not_lowercase :
  formatAddress "0x000000000000000000000000AbCdEf0123456789abcdef0123456789abcdef01"
  = "0xAbCdEf0123456789abcdef0123456789abcdef01" /\
  formatAddress "0x000000000000000000000000AbCdEf0123456789abcdef0123456789abcdef01"
  <> "0xabcdef0123456789abcdef0123456789abcdef01" /\
  exists e,
    decodeEvent (NETWORKS Sample.cfg "sepolia") (Sample.purchase 1500) = Ok e /\
    topics (Sample.purchase 1500) !! 2%nat
    = Some "0x000000000000000000000000AbCdEf0123456789abcdef0123456789abcdef01" /\
    receiver e = "0xAbCdEf0123456789abcdef0123456789abcdef01" /\
    receiver e <> "0xabcdef0123456789abcdef0123456789abcdef01".
Proof.
  split; [reflexivity|]. split; [vm_compute; discriminate|].
  eexists. split; [vm_compute; reflexivity|]. split; [reflexivity|].
  split; [reflexivity|]. vm_compute. discriminate.
Qed.

(** ** Sorting *)

Section Sorting.
Context {A : Type} (cmp : A -> A -> Z).

Lemma sort_insert_Permutation x l : JS.sort_insert cmp x l ≡ₚ x :: l.
Proof.
  induction l as [|y l IH]; simpl; [reflexivity|].
  destruct (cmp x y <=? 0); [reflexivity|].
  rewrite IH. apply Permutation_swap.
Qed.

Lemma sort_Permutation l : JS.sort cmp l ≡ₚ l.
Proof.
  induction l as [|x l IH]; simpl; [reflexivity|].
  rewrite sort_insert_Permutation, IH. reflexivity.
Qed.

(** Where the comparator orders the elements it is given consistently with a
    transitive relation [R], the sorted array is ordered by [R]. *)
Context (R : relation A) (P : A -> Prop).
Hypothesis R_trans : Transitive R.
Hypothesis cmp_le : forall x y, P x -> P y -> cmp x y <= 0 -> R x y.
Hypothesis cmp_gt : forall x y, P x -> P y -> ~ cmp x y <= 0 -> R y x.

Lemma sort_insert_StronglySorted x l :
  P x -> Forall P l ->
  StronglySorted R l -> StronglySorted R (JS.sort_insert cmp x l).
Proof using R_trans cmp_le cmp_gt.
  intros Hx HP Hl. induction Hl as [|y l Hl IH Hy]; simpl.
  - repeat constructor.
  - apply Forall_cons in HP as [HPy HPl].
    destruct (Z.leb_spec (cmp x y) 0) as [Hle|Hgt].
    + constructor; [constructor; assumption|].
      pose proof (cmp_le x y Hx HPy Hle) as Hxy.
      constructor; [exact Hxy|].
      eapply Forall_impl; [exact Hy|]. intros z Hyz. etrans; eassumption.
    + constructor; [exact (IH HPl)|].
      rewrite sort_insert_Permutation. constructor; [|exact Hy].
      apply (cmp_gt x y Hx HPy). lia.
Qed.

Lemma sort_StronglySorted l :
  Forall P l -> StronglySorted R (JS.sort cmp l).
Proof using R_trans cmp_le cmp_gt.
  induction 1 as [|x l Hx Hl IH]; simpl; [constructor|].
  apply sort_insert_StronglySorted; [exact Hx| |exact IH].
  rewrite sort_Permutation. exact Hl.
Qed.

End Sorting.

Lemma StronglySorted_take {A} (R : relation A) (l : list A) (k : nat) :
  StronglySorted R l -> StronglySorted R (take k l).
Proof.
  intros Hl. revert k. induction Hl as [|x l Hl IH Hx]; intros [|k]; simpl;
    try constructor; [apply IH|].
  apply Forall_take. exact Hx.
Qed.

Lemma StronglySorted_lookup {A} (R : relation A) (l : list A) (i j : nat) a b :
  StronglySorted R l -> (i < j)%nat ->
  l !! i = Some a -> l !! j = Some b -> R a b.
Proof.
  intros Hl. revert i j. induction Hl as [|x l Hl IH Hx]; intros i j Hij Hi Hj.
  - rewrite lookup_nil in Hi. discriminate.
  - destruct j as [|j]; [lia|]. destruct i as [|i]; simpl in *.
    + injection Hi as <-. eapply Forall_forall in Hx; [exact Hx|].
      eapply list_elem_of_lookup_2. exact Hj.
    + eapply IH; [|exact Hi|exact Hj]. lia.
Qed.

(** [arr.slice(0, limit)] is a prefix of [arr], of at most [limit] elements
    when [limit] is not negative. *)
Lemma applyLimit_take {A} (limit : Limit) (l : list A) :
  exists k, applyLimit limit l = take k l /\
            forall n, limit = Num n -> 0 <= n -> Z.of_nat (length (take k l)) <= n.
Proof.
  destruct limit as [|n]; simpl.
  - exists (length l). rewrite take_ge by lia. split; [reflexivity|discriminate].
  - unfold JS.slice. change (JS.rel_index (length l) 0) with 0%nat.
    rewrite drop_0. eexists. split; [reflexivity|].
    intros ? [= <-] Hn. rewrite length_take. unfold JS.rel_index.
    destruct (Z.ltb_spec n 0); lia.
Qed.

(** ** The reverse scanner *)

Lemma decodeEvent_fields network log e :
  decodeEvent network log = Ok e ->
  blockNumber e = log_blockNumber log /\ timestamp e = None.
Proof.
  unfold decodeEvent.
  destruct (topics log !! 1%nat); [|discriminate].
  destruct (topics log !! 2%nat); [|discriminate]. simpl.
  destruct (JS.BigInt _); [|discriminate]. simpl.
  destruct (JS.BigInt _); [|discriminate]. simpl.
  destruct network; [|discriminate].
  intros [= <-]. split; reflexivity.
Qed.

Lemma mapM_cons_Ok {A B} (f : A -> result B) x l ys :
  mapM f (x :: l) = Ok ys <->
  exists y ys', f x = Ok y /\ mapM f l = Ok ys' /\ ys = y :: ys'.
Proof.
  simpl. split.
  - destruct (f x) as [y|]; [|discriminate]. simpl.
    destruct (mapM f l) as [ys'|]; [|discriminate]. simpl.
    intros [= <-]. eauto.
  - intros (y & ys' & -> & -> & ->). reflexivity.
Qed.


(** Decoding two orderings of the same logs gives two orderings of the same
    events. *)
Lemma mapM_Permutation {A B} (f : A -> result B) l1 l2 :
  l1 ≡ₚ l2 ->
  forall ys2, mapM f l2 = Ok ys2 ->
              exists ys1, mapM f l1 = Ok ys1 /\ ys1 ≡ₚ ys2.
Proof.
  induction 1 as [|x l1 l2 _ IH|x y l|l1 l2 l3 _ IH12 _ IH23]; intros ys.
  - intros [= <-]. exists []. split; reflexivity.
  - intros (y & ys' & Hx & Hrest & ->)%mapM_cons_Ok.
    destruct (IH _ Hrest) as (ys1 & H1 & Hp).
    exists (y :: ys1). split; [|constructor; exact Hp].
    apply mapM_cons_Ok. eauto.
  - intros (y' & ys' & Hx & (y'' & ys'' & Hy & Hrest & ->)%mapM_cons_Ok & ->)%mapM_cons_Ok.
    exists (y'' :: y' :: ys''). split; [|apply Permutation_swap].
    apply mapM_cons_Ok. eexists _, _. split; [exact Hy|]. split; [|reflexivity].
    apply mapM_cons_Ok. eauto.
  - intros H3. destruct (IH23 _ H3) as (ys2 & H2 & Hp23).
    destruct (IH12 _ H2) as (ys1 & H1 & Hp12).
    exists ys1. split; [exact H1|]. etrans; eassumption.
Qed.

Lemma logsInRange_empty chainLogs fromBlock toBlock :
  toBlock < fromBlock -> logsInRange chainLogs fromBlock toBlock = [].
Proof.
  intros Hlt. unfold logsInRange.
  induction chainLogs as [|l chainLogs IH]; [reflexivity|].
  rewrite filter_cons. rewrite decide_False by lia. exact IH.
Qed.

(** The logs of a range are those of its upper part and those of its lower
    part. *)
Lemma logsInRange_split chainLogs a b c :
  a <= b <= c + 1 ->
  logsInRange chainLogs a c
  ≡ₚ logsInRange chainLogs b c ++ logsInRange chainLogs a (b - 1).
Proof.
  intros Hb. unfold logsInRange.
  induction chainLogs as [|l chainLogs IH]; [reflexivity|].
  rewrite !filter_cons.
  destruct (decide (b <= log_blockNumber l <= c)) as [Hup|Hup].
  - rewrite decide_True, decide_False by lia. simpl. constructor. exact IH.
  - destruct (decide (a <= log_blockNumber l <= b - 1)) as [Hlow|Hlow].
    + rewrite decide_True by lia. rewrite <- Permutation_middle. constructor. exact IH.
    + rewrite decide_False by lia. exact IH.
Qed.

(** With limit ['all'] on a healthy node the loop collects the logs of
    [[startBlock, toBlock]]. *)
Lemma reverseLoop_all_collects client contractAddress args chainLogs startBlock
    toBlock collectedEvents :
  servesChain client contractAddress args chainLogs ->
  exists collected,
    (reverseLoop client contractAddress args All startBlock toBlock
       collectedEvents).2 = Ok collected /\
    collected ≡ₚ collectedEvents ++ logsInRange chainLogs startBlock toBlock.
Proof.
  intros Hserve. revert toBlock collectedEvents.
  apply (reverseLoop_iter_ind client contractAddress args All startBlock
           (fun toBlock collectedEvents r =>
              exists collected,
                r.2 = Ok collected /\
                collected ≡ₚ collectedEvents
                             ++ logsInRange chainLogs startBlock toBlock)); simpl.
  - intros toBlock collectedEvents Hlt. eexists. split; [reflexivity|].
    rewrite logsInRange_empty by lia. rewrite app_nil_r. reflexivity.
  - intros toBlock collectedEvents err _ Hlogs. rewrite Hserve in Hlogs. discriminate.
  - intros toBlock collectedEvents logs Hle Hlogs [Hlimit|Hstart]; [discriminate|].
    rewrite Hserve in Hlogs. injection Hlogs as <-. rewrite Hstart.
    eexists. split; reflexivity.
  - intros toBlock collectedEvents logs rest Hle Hlogs _ Hgt (collected & Hrest & Hperm).
    rewrite Hserve in Hlogs. injection Hlogs as <-.
    exists collected. split; [exact Hrest|].
    rewrite Hperm, <- app_assoc. apply Permutation_app_head.
    symmetry. apply logsInRange_split. lia.
Qed.

(** What [fetchEventsFromNetworkReverse] returns: nothing when its body
    throws, and otherwise the collected logs, sorted, cut to the limit,
    decoded and stamped. *)
Lemma fetchEventsFromNetworkReverse_cases cfg client clock contractAddress
    networkKey limit merchantAddress :
  let fetched :=
    fetchEventsFromNetworkReverse cfg client clock contractAddress networkKey
      limit merchantAddress in
  (fetched = Ok [] /\
   exists err, (reverseScan cfg client clock contractAddress networkKey limit
                  merchantAddress).2 = Throw err) \/
  (exists currentBlock collected decoded,
      getBlockNumber client = Ok currentBlock /\
      (reverseLoop client contractAddress (receiverArgs merchantAddress) limit
         (deploymentStart cfg networkKey) currentBlock []).2 = Ok collected /\
      mapM (decodeEvent (NETWORKS cfg networkKey))
        (applyLimit limit (JS.sort byBlockDescending collected)) = Ok decoded /\
      fetched = Ok (map (resolved client clock) decoded)).
Proof.
  unfold fetchEventsFromNetworkReverse, reverseScan.
  destruct (getBlockNumber client) as [currentBlock|err]; simpl; [|left; eauto].
  destruct (reverseLoop _ _ _ _ _ _ _).2 as [collected|err] eqn:Hloop; simpl;
    [|left; eauto].
  destruct (mapM _ _) as [decoded|err] eqn:Hdecoded; simpl; [|left; eauto].
  rewrite attachTimestamps_resolved. simpl. right.
  exists currentBlock, collected, decoded.
  split; [reflexivity|]. split; [exact Hloop|]. split; [exact Hdecoded|reflexivity].
Qed.



Lemma map_withoutTimestamp_resolved client clock events :
  map withoutTimestamp (map (resolved client clock) events)
  = map withoutTimestamp events.
Proof. rewrite map_map. reflexivity. Qed.

Lemma mapM_withoutTimestamp network logs events :
  mapM (decodeEvent network) logs = Ok events ->
  map withoutTimestamp events = events.
Proof.
  revert events. induction logs as [|log logs IH]; intros events.
  - intros [= <-]. reflexivity.
  - intros (e & events' & He & Hrest & ->)%mapM_cons_Ok.
    simpl. f_equal; [|exact (IH _ Hrest)].
    apply decodeEvent_fields in He as [_ He].
    destruct e. simpl in He. subst. reflexivity.
Qed.

(** With limit ['all'] on a healthy node whose logs all decode, the scan
    returns the events of the whole range, stamped. *)
Lemma fetchEventsFromNetworkReverse_all cfg client clock contractAddress
    networkKey merchantAddress currentBlock chainLogs decoded :
  getBlockNumber client = Ok currentBlock ->
  servesChain client contractAddress (receiverArgs merchantAddress) chainLogs ->
  mapM (decodeEvent (NETWORKS cfg networkKey))
    (logsInRange chainLogs (deploymentStart cfg networkKey) currentBlock)
  = Ok decoded ->
  exists events,
    fetchEventsFromNetworkReverse cfg client clock contractAddress networkKey
      All merchantAddress = Ok (map (resolved client clock) events) /\
    events ≡ₚ decoded.
Proof.
  intros Hheight Hserve Hdecoded.
  unfold fetchEventsFromNetworkReverse, reverseScan. rewrite Hheight. simpl.
  destruct (reverseLoop_all_collects _ _ _ _ (deploymentStart cfg networkKey)
              currentBlock [] Hserve) as (collected & -> & Hperm).
  simpl in Hperm. simpl.
  destruct (mapM_Permutation (decodeEvent (NETWORKS cfg networkKey))
              (JS.sort byBlockDescending collected) _
              ltac:(rewrite sort_Permutation; exact Hperm) _ Hdecoded)
    as (events & -> & Hevents).
  simpl. rewrite attachTimestamps_resolved. simpl. eauto.
Qed.




(** ** The export aggregator *)

Lemma fetchEventsFromNetworkReverse_stamped cfg client clock contractAddress
    networkKey limit merchantAddress :
  exists events,
    fetchEventsFromNetworkReverse cfg client clock contractAddress networkKey
      limit merchantAddress = Ok events /\
    Forall stamped events.
Proof.
  destruct (fetchEventsFromNetworkReverse_cases cfg client clock contractAddress
              networkKey limit merchantAddress)
    as [[Hfetched _]|(currentBlock & collected & decoded & _ & _ & _ & Hfetched)];
    cbv zeta in Hfetched; eexists; (split; [exact Hfetched|]).
  - constructor.
  - apply Forall_forall. intros e (e0 & -> & _)%list_elem_of_fmap.
    unfold stamped. simpl. eauto.
Qed.

Lemma resolvedTime_dated client clock bn :
  reportsDates client -> exists ms, resolvedTime client clock bn = JS.DateAt ms.
Proof.
  intros Hdates. unfold resolvedTime.
  destruct (getBlock client bn) as [block|err] eqn:Hblock; [|eauto].
  destruct (Hdates bn block Hblock) as (seconds & -> & Hrange).
  exists (seconds * 1000). cbn [JS.Number_times_1000 JS.newDate].
  unfold JS.maxTimeValue.
  destruct (Z.leb_spec (Z.abs (seconds * 1000)) 8640000000000000);
    [reflexivity|lia].
Qed.

(** On a node whose blocks report times within the range of a [Date], every
    event of a reverse scan carries a valid [Date]. *)
Lemma fetchEventsFromNetworkReverse_dated cfg client clock contractAddress
    networkKey limit merchantAddress events :
  reportsDates client ->
  fetchEventsFromNetworkReverse cfg client clock contractAddress networkKey
    limit merchantAddress = Ok events ->
  Forall dated events.
Proof.
  intros Hdates.
  destruct (fetchEventsFromNetworkReverse_cases cfg client clock contractAddress
              networkKey limit merchantAddress)
    as [[Hfetched _]|(currentBlock & collected & decoded & _ & _ & _ & Hfetched)];
    cbv zeta in Hfetched; rewrite Hfetched; intros [= <-].
  - constructor.
  - apply Forall_forall. intros e (e0 & -> & _)%list_elem_of_fmap.
    destruct (resolvedTime_dated client clock (blockNumber e0) Hdates) as [ms Hms].
    exists ms. cbn [timestamp resolved]. rewrite Hms. reflexivity.
Qed.

Lemma dated_stamped e : dated e -> stamped e.
Proof. intros [ms Hms]. unfold stamped. rewrite Hms. eauto. Qed.

Lemma laterOrEqual_trans : Transitive laterOrEqual.
Proof.
  intros a b c (ta & tb & Ha & Hb & Hab) (tb' & tc & Hb' & Hc & Hbc).
  rewrite Hb in Hb'. injection Hb' as <-.
  exists ta, tc. repeat split; try assumption. lia.
Qed.

Lemma byTimestampDescending_le a b :
  dated a -> dated b -> byTimestampDescending a b <= 0 -> laterOrEqual a b.
Proof.
  unfold byTimestampDescending. intros [ta Ha] [tb Hb]. rewrite Ha, Hb.
  cbn [JS.getTime]. intros Hle. exists ta, tb. repeat split; try assumption. lia.
Qed.

Lemma byTimestampDescending_gt a b :
  dated a -> dated b -> ~ byTimestampDescending a b <= 0 -> laterOrEqual b a.
Proof.
  unfold byTimestampDescending. intros [ta Ha] [tb Hb]. rewrite Ha, Hb.
  cbn [JS.getTime]. intros Hgt. exists tb, ta. repeat split; try assumption. lia.
Qed.

(** On events that all carry a valid [Date] the comparator of the global
    sort orders by decreasing timestamp. *)
Lemma byTimestampDescending_sorted events :
  Forall dated events ->
  StronglySorted laterOrEqual (JS.sort byTimestampDescending events).
Proof.
  apply (sort_StronglySorted byTimestampDescending _ dated).
  - exact laterOrEqual_trans.
  - exact byTimestampDescending_le.
  - exact byTimestampDescending_gt.
Qed.

(** C4, as amended. [fetchTransactionsForExport] does not throw, whatever
    the three nodes answer and whatever the limit, and every event it
    returns carries a timestamp. When the blocks of the three nodes report
    times within the range of a [Date], every timestamp is a valid [Date]
    and the events are in decreasing order of timestamp: of two returned
    events with timestamps [t1 > t2], the one with [t1] is at the smaller
    index. *)
Theorem fetchTransactionsForExport_sorted_by_timestamp (cfg : Config)
    (svc : TransactionService) (clock : string -> Z -> Z) (limit : Limit)
    (merchantAddress : option string) :
  exists events,
    fetchTransactionsForExport cfg svc clock limit merchantAddress = Ok events /\
    Forall stamped events /\
    (reportsDates (sepoliaClient svc) ->
     reportsDates (etcClient svc) ->
     reportsDates (mordorClient svc) ->
     Forall dated events /\
     forall i j e1 e2 t1 t2,
       events !! i = Some e1 -> events !! j = Some e2 ->
       timestamp e1 = Some (JS.DateAt t1) ->
       timestamp e2 = Some (JS.DateAt t2) ->
       t1 > t2 -> (i < j)%nat).
Proof.
  unfold fetchTransactionsForExport.
  destruct (fetchEventsFromNetworkReverse_stamped cfg (sepoliaClient svc)
              (clock "sepolia") (CONTRACTS_stablepay cfg) "sepolia" limit
              merchantAddress) as (sepoliaEvents & Hsepolia & Hs).
  destruct (fetchEventsFromNetworkReverse_stamped cfg (etcClient svc)
              (clock "ethereum-classic") (CONTRACTS_stablepay_etc cfg)
              "ethereum-classic" limit merchantAddress)
    as (etcEvents & Hetc & He).
  destruct (fetchEventsFromNetworkReverse_stamped cfg (mordorClient svc)
              (clock "mordor") (CONTRACTS_stablepay_mordor cfg) "mordor" limit
              merchantAddress) as (mordorEvents & Hmordor & Hm).
  rewrite Hsepolia, Hetc, Hmordor. simpl.
  set (allEvents := sepoliaEvents ++ etcEvents ++ mordorEvents).
  assert (Hall : Forall stamped allEvents)
    by (subst allEvents; rewrite !Forall_app; auto).
  destruct (applyLimit_take limit (JS.sort byTimestampDescending allEvents))
    as (k & -> & _).
  eexists. split; [reflexivity|]. split.
  { apply Forall_take. rewrite sort_Permutation. exact Hall. }
  intros Hds Hde Hdm.
  assert (Hdated : Forall dated allEvents).
  { subst allEvents. rewrite !Forall_app. split; [|split].
    - exact (fetchEventsFromNetworkReverse_dated _ _ _ _ _ _ _ _ Hds Hsepolia).
    - exact (fetchEventsFromNetworkReverse_dated _ _ _ _ _ _ _ _ Hde Hetc).
    - exact (fetchEventsFromNetworkReverse_dated _ _ _ _ _ _ _ _ Hdm Hmordor). }
  pose proof (StronglySorted_take _ _ k (byTimestampDescending_sorted _ Hdated))
    as Hsorted.
  split.
  - apply Forall_take. rewrite sort_Permutation. exact Hdated.
  - intros i j e1 e2 t1 t2 Hi Hj H1 H2 Hgt.
    destruct (Nat.lt_trichotomy i j) as [Hlt|[->|Hlt]]; [exact Hlt| |].
    + rewrite Hi in Hj. injection Hj as <-. rewrite H1 in H2. injection H2 as <-. lia.
    + destruct (StronglySorted_lookup _ _ _ _ _ _ Hsorted Hlt Hj Hi)
        as (t2' & t1' & H2' & H1' & Hge).
      rewrite H1 in H1'. rewrite H2 in H2'.
      injection H1' as <-. injection H2' as <-. lia.
Qed.

Lemma node_reportsDates height chainLogs :
  height <= 1000000000 -> reportsDates (Sample.node height chainLogs).
Proof.
  intros Hheight bn block. cbn [getBlock Sample.node].
  destruct (Z.leb_spec 0 bn); [|discriminate].
  destruct (Z.leb_spec bn height); [|discriminate].
  intros [= <-]. eexists. split; [reflexivity|]. lia.
Qed.

Lemma rpcError_reportsDates height : reportsDates (Sample.rpcError height).
Proof. intros bn block. discriminate. Qed.

(** The sample service with a global limit of four: sepolia has five
    purchases, ethereum-classic fails, mordor has three; the blocks of the
    nodes report times of the year 2023, and the four latest events by
    timestamp are returned, latest first. *)
Lemma fetchTransactionsForExport_sorted_by_timestamp_witness :
  exists events,
    fetchTransactionsForExport Sample.cfg Sample.service (fun _ => Sample.clock)
      (Num 4) None = Ok events /\
    map blockNumber events = [110000; 69999; 60000; 60000] /\
    forall i j e1 e2 t1 t2,
      events !! i = Some e1 -> events !! j = Some e2 ->
      timestamp e1 = Some (JS.DateAt t1) ->
      timestamp e2 = Some (JS.DateAt t2) ->
      t1 > t2 -> (i < j)%nat.
Proof.
  destruct (fetchTransactionsForExport_sorted_by_timestamp Sample.cfg
              Sample.service (fun _ => Sample.clock) (Num 4) None)
    as (events & Hfetched & _ & Hsorted).
  destruct (Hsorted (node_reportsDates 120000 _ ltac:(lia))
              (rpcError_reportsDates 90000)
              (node_reportsDates 70000 _ ltac:(lia))) as [_ Horder].
  exists events. split; [exact Hfetched|]. split; [|exact Horder].
  vm_compute in Hfetched. injection Hfetched as <-. reflexivity.
Defined.

(** C4, as stated, fails when a block reports a time beyond the range of a
    [Date]. The sepolia contract logged purchases at blocks 1001, 1002 and
    1003; block 1001 reports second 2000, block 1003 second 1000 and block
    1002 second 9e12, for which [new Date] gives the Invalid Date. The
    pipeline of sepolia returns the events by decreasing block number, 1003,
    1002, 1001. The global sort compares 1002 with 1003 and 1001 with 1002;
    both differences are NaN, so it moves nothing, and the export returns the
    event of time 1000000 before the event of time 2000000. *)
Lemma export_order_breaks_on_invalid_date :
  exists e1 e2 e3,
    fetchTransactionsForExport Sample.cfg Sample.farFutureService
      (fun _ => Sample.clock) All None = Ok [e1; e2; e3] /\
    map blockNumber [e1; e2; e3] = [1003; 1002; 1001] /\
    map timestamp [e1; e2; e3]
    = [Some (JS.DateAt 1000000); Some JS.InvalidDate; Some (JS.DateAt 2000000)] /\
    ~ (forall i j a b t1 t2,
          [e1; e2; e3] !! i = Some a -> [e1; e2; e3] !! j = Some b ->
          timestamp a = Some (JS.DateAt t1) ->
          timestamp b = Some (JS.DateAt t2) ->
          t1 > t2 -> (i < j)%nat).
Proof.
  do 3 eexists. split; [vm_compute; reflexivity|].
  split; [reflexivity|]. split; [reflexivity|].
  intros Hsorted.
  pose proof (Hsorted 2%nat 0%nat _ _ 2000000 1000000 eq_refl eq_refl eq_refl
                eq_refl ltac:(lia)) as Hlt.
  lia.
Qed.

(** * Further properties of the scanners *)

(** ** Requests under any client behaviour *)

Section LoopRequests.
Context (client : Client) (contractAddress : string) (args : option string).

Lemma forwardLoop_requests_in_range currentBlock fromBlock allEvents :
  Forall (fun q => fromBlock <= q_from q /\ q_from q <= q_to q /\ q_to q <= currentBlock)
    (forwardLoop client contractAddress args currentBlock fromBlock allEvents).1.
Proof.
  revert fromBlock allEvents.
  apply (forwardLoop_iter_ind client contractAddress args currentBlock
           (fun fromBlock _ r =>
              Forall (fun q => fromBlock <= q_from q /\ q_from q <= q_to q
                               /\ q_to q <= currentBlock) r.1)); simpl.
  - constructor.
  - intros fromBlock _ err Hle _. repeat constructor; simpl; lia.
  - intros fromBlock _ logs rest Hle _ IH. constructor; [simpl; lia|].
    eapply Forall_impl; [exact IH|]. simpl. intros q Hq. lia.
Qed.

Lemma reverseLoop_requests_in_range limit startBlock toBlock collectedEvents :
  Forall (fun q => startBlock <= q_from q /\ q_from q <= q_to q /\ q_to q <= toBlock)
    (reverseLoop client contractAddress args limit startBlock toBlock
       collectedEvents).1.
Proof.
  revert toBlock collectedEvents.
  apply (reverseLoop_iter_ind client contractAddress args limit startBlock
           (fun toBlock _ r =>
              Forall (fun q => startBlock <= q_from q /\ q_from q <= q_to q
                               /\ q_to q <= toBlock) r.1)); simpl.
  - constructor.
  - intros toBlock _ err Hle _. repeat constructor; simpl; lia.
  - intros toBlock _ logs Hle _ _. repeat constructor; simpl; lia.
  - intros toBlock _ logs rest Hle _ _ Hgt IH. constructor; [simpl; lia|].
    eapply Forall_impl; [exact IH|]. simpl. intros q Hq. lia.
Qed.

Lemma forwardLoop_at_most_once currentBlock fromBlock allEvents b :
  (timesQueried
     (forwardLoop client contractAddress args currentBlock fromBlock allEvents).1 b
   <= if decide (fromBlock <= b <= currentBlock)%Z then 1 else 0)%nat.
Proof.
  revert fromBlock allEvents.
  apply (forwardLoop_iter_ind client contractAddress args currentBlock
           (fun fromBlock _ r =>
              (timesQueried r.1 b
               <= if decide (fromBlock <= b <= currentBlock)%Z then 1 else 0)%nat));
    simpl.
  - intros. unfold timesQueried. simpl. lia.
  - intros fromBlock _ err Hle _. rewrite timesQueried_cons.
    unfold timesQueried. simpl. repeat case_decide; lia.
  - intros fromBlock _ logs rest Hle _ IH. rewrite timesQueried_cons. simpl.
    revert IH. repeat case_decide; lia.
Qed.

Lemma reverseLoop_at_most_once limit startBlock toBlock collectedEvents b :
  (timesQueried
     (reverseLoop client contractAddress args limit startBlock toBlock
        collectedEvents).1 b
   <= if decide (startBlock <= b <= toBlock)%Z then 1 else 0)%nat.
Proof.
  revert toBlock collectedEvents.
  apply (reverseLoop_iter_ind client contractAddress args limit startBlock
           (fun toBlock _ r =>
              (timesQueried r.1 b
               <= if decide (startBlock <= b <= toBlock)%Z then 1 else 0)%nat));
    simpl.
  - intros. unfold timesQueried. simpl. lia.
  - intros toBlock _ err Hle _. rewrite timesQueried_cons.
    unfold timesQueried. simpl. repeat case_decide; lia.
  - intros toBlock _ logs Hle _ _. rewrite timesQueried_cons.
    unfold timesQueried. simpl. repeat case_decide; lia.
  - intros toBlock _ logs rest Hle _ _ Hgt IH. rewrite timesQueried_cons. simpl.
    revert IH. repeat case_decide; lia.
Qed.

(** The requests of a scan with a limit are the first requests of the scan
    without one. *)
Lemma reverseLoop_limit_prefix limit startBlock toBlock collectedEvents :
  (reverseLoop client contractAddress args limit startBlock toBlock
     collectedEvents).1
  `prefix_of`
  (reverseLoop client contractAddress args All startBlock toBlock
     collectedEvents).1.
Proof.
  revert toBlock collectedEvents.
  apply (reverseLoop_iter_ind client contractAddress args limit startBlock
           (fun toBlock collectedEvents r =>
              r.1 `prefix_of`
              (reverseLoop client contractAddress args All startBlock toBlock
                 collectedEvents).1)); simpl.
  - intros. apply prefix_nil.
  - intros toBlock acc err Hle Hlogs. rewrite reverseLoop_while.
    rewrite decide_True by lia. cbv zeta. rewrite reverseFromBlock_max, Hlogs.
    reflexivity.
  - intros toBlock acc logs Hle Hlogs _. rewrite reverseLoop_while.
    rewrite decide_True by lia. cbv zeta. rewrite reverseFromBlock_max, Hlogs.
    simpl. destruct (_ <=? _); simpl; [reflexivity|].
    apply prefix_cons, prefix_nil.
  - intros toBlock acc logs rest Hle Hlogs _ Hgt IH.
    rewrite (reverseLoop_while _ _ _ All startBlock toBlock).
    rewrite decide_True by lia. cbv zeta. rewrite reverseFromBlock_max, Hlogs.
    simpl. destruct (Z.leb_spec (Z.max (toBlock - 50000) startBlock) startBlock);
      [lia|]. simpl. apply prefix_cons. exact IH.
Qed.

End LoopRequests.

(** X1. Whatever the client answers and whatever the limit, every request of
    a forward or of a reverse scan is a non-empty block range inside
    [[deploymentStartBlock, currentHeight]], the height being the one read
    at the start of the scan. *)
Theorem scan_requests_stay_in_range (cfg : Config) (client : Client)
    (clock : Z -> Z) (contractAddress networkKey : string) (limit : Limit)
    (merchantAddress : option string) (currentHeight : Z) :
  getBlockNumber client = Ok currentHeight ->
  let inRange q :=
    deploymentStart cfg networkKey <= q_from q /\ q_from q <= q_to q
    /\ q_to q <= currentHeight in
  Forall inRange
    (forwardScan cfg client contractAddress networkKey merchantAddress).1 /\
  Forall inRange
    (reverseScan cfg client clock contractAddress networkKey limit
       merchantAddress).1.
Proof.
  intros Hheight inRange. unfold forwardScan, reverseScan. rewrite Hheight. simpl.
  split; [apply forwardLoop_requests_in_range|apply reverseLoop_requests_in_range].
Qed.

(** A sepolia node at height 120000 that rejects every log request: each scan
    issues its first request, inside [[1000, 120000]], and stops. *)
Lemma scan_requests_stay_in_range_witness :
  (forwardScan Sample.cfg (Sample.deaf 120000) "0x1111" "sepolia" None).1
  = [Build_Query 1000 50999] /\
  (reverseScan Sample.cfg (Sample.deaf 120000) Sample.clock "0x1111" "sepolia"
     (Num 3) None).1 = [Build_Query 70000 120000] /\
  Forall (fun q => 1000 <= q_from q /\ q_from q <= q_to q /\ q_to q <= 120000)
    (forwardScan Sample.cfg (Sample.deaf 120000) "0x1111" "sepolia" None).1 /\
  Forall (fun q => 1000 <= q_from q /\ q_from q <= q_to q /\ q_to q <= 120000)
    (reverseScan Sample.cfg (Sample.deaf 120000) Sample.clock "0x1111" "sepolia"
       (Num 3) None).1.
Proof.
  split; [vm_compute; reflexivity|]. split; [vm_compute; reflexivity|].
  exact (scan_requests_stay_in_range Sample.cfg (Sample.deaf 120000) Sample.clock
           "0x1111" "sepolia" (Num 3) None 120000 eq_refl).
Defined.

(** X2. No block is requested twice in one scan, forward or reverse, whatever
    the client answers and whatever the limit: a rejected request is not
    retried and the chunks never overlap. *)
Theorem scan_never_requests_a_block_twice (cfg : Config) (client : Client)
    (clock : Z -> Z) (contractAddress networkKey : string) (limit : Limit)
    (merchantAddress : option string) (b : Z) :
  (timesQueried
     (forwardScan cfg client contractAddress networkKey merchantAddress).1 b
   <= 1)%nat /\
  (timesQueried
     (reverseScan cfg client clock contractAddress networkKey limit
        merchantAddress).1 b
   <= 1)%nat.
Proof.
  unfold forwardScan, reverseScan.
  destruct (getBlockNumber client) as [currentHeight|err]; simpl.
  - split.
    + etrans; [apply forwardLoop_at_most_once|]. case_decide; lia.
    + etrans; [apply reverseLoop_at_most_once|]. case_decide; lia.
  - unfold timesQueried. simpl. lia.
Qed.

(** X3. The requests of a reverse scan with a numeric limit are an initial
    segment of the requests the same scan issues with limit ['all']: a limit
    only ever ends the scan earlier. *)
Theorem limit_only_shortens_reverse_scan (cfg : Config) (client : Client)
    (clock : Z -> Z) (contractAddress networkKey : string) (n : Z)
    (merchantAddress : option string) :
  (reverseScan cfg client clock contractAddress networkKey (Num n)
     merchantAddress).1
  `prefix_of`
  (reverseScan cfg client clock contractAddress networkKey All
     merchantAddress).1.
Proof.
  unfold reverseScan. destruct (getBlockNumber client); simpl; [|reflexivity].
  apply reverseLoop_limit_prefix.
Qed.

(** X4. A reverse scan with limit 0 still issues one request, for the chunk
    at the tip of the chain, and returns no event, whatever that request is
    answered. *)
Theorem limit_zero_costs_one_request (cfg : Config) (client : Client)
    (clock : Z -> Z) (contractAddress networkKey : string)
    (merchantAddress : option string) (currentHeight : Z) :
  getBlockNumber client = Ok currentHeight ->
  deploymentStart cfg networkKey <= currentHeight ->
  (reverseScan cfg client clock contractAddress networkKey (Num 0)
     merchantAddress).1
  = [Build_Query (Z.max (currentHeight - 50000) (deploymentStart cfg networkKey))
       currentHeight] /\
  fetchEventsFromNetworkReverse cfg client clock contractAddress networkKey
    (Num 0) merchantAddress = Ok [].
Proof.
  intros Hheight Hle. unfold fetchEventsFromNetworkReverse, reverseScan.
  rewrite Hheight. simpl. rewrite reverseLoop_while.
  rewrite decide_True by lia. cbv zeta. rewrite reverseFromBlock_max.
  destruct (getLogs _ _ _ _ _) as [logs|err]; simpl; [|split; reflexivity].
  destruct (Z.geb_spec (Z.of_nat (length logs)) 0) as [_|Hneg]; [|lia].
  simpl. split; [reflexivity|].
  change (applyLimit (Num 0) ?l) with (JS.slice 0 0 l).
  unfold JS.slice. change (JS.rel_index _ 0) with 0%nat. simpl.
  reflexivity.
Qed.

(** The sample sepolia node, two purchases within reach of the first chunk. *)
Lemma limit_zero_costs_one_request_witness :
  (reverseScan Sample.cfg (Sample.node 120000 Sample.twoPurchases) Sample.clock
     "0x1111" "sepolia" (Num 0) None).1 = [Build_Query 70000 120000] /\
  fetchEventsFromNetworkReverse Sample.cfg
    (Sample.node 120000 Sample.twoPurchases) Sample.clock "0x1111" "sepolia"
    (Num 0) None = Ok [].
Proof.
  exact (limit_zero_costs_one_request Sample.cfg
           (Sample.node 120000 Sample.twoPurchases) Sample.clock "0x1111"
           "sepolia" None 120000 eq_refl ltac:(vm_compute; discriminate)).
Defined.

(** X5. When the height read from the node is below the deployment block,
    neither scan issues a request and both return the empty sequence. *)
Theorem no_request_below_deployment_block (cfg : Config) (client : Client)
    (clock : Z -> Z) (contractAddress networkKey : string) (limit : Limit)
    (merchantAddress : option string) (currentHeight : Z) :
  getBlockNumber client = Ok currentHeight ->
  currentHeight < deploymentStart cfg networkKey ->
  forwardScan cfg client contractAddress networkKey merchantAddress = ([], Ok []) /\
  reverseScan cfg client clock contractAddress networkKey limit merchantAddress
  = ([], Ok []).
Proof.
  intros Hheight Hlt. unfold forwardScan, reverseScan. rewrite Hheight.
  rewrite forwardLoop_while, reverseLoop_while.
  rewrite !decide_False by lia. simpl.
  destruct limit as [|n]; simpl; [split; reflexivity|].
  split; [reflexivity|]. unfold JS.slice. simpl. rewrite take_nil. reflexivity.
Qed.

(** A sepolia node that is still at block 500, below the deployment block
    1000. *)
Lemma no_request_below_deployment_block_witness :
  forwardScan Sample.cfg (Sample.node 500 Sample.twoPurchases) "0x1111" "sepolia"
    None = ([], Ok []) /\
  reverseScan Sample.cfg (Sample.node 500 Sample.twoPurchases) Sample.clock
    "0x1111" "sepolia" (Num 5) None = ([], Ok []).
Proof.
  exact (no_request_below_deployment_block Sample.cfg
           (Sample.node 500 Sample.twoPurchases) Sample.clock "0x1111" "sepolia"
           (Num 5) None 500 eq_refl ltac:(vm_compute; reflexivity)).
Defined.

(** ** Scans of a healthy node *)

Lemma logsInRange_above chainLogs a b :
  Forall (fun l => b < log_blockNumber l) chainLogs ->
  logsInRange chainLogs a b = [].
Proof.
  unfold logsInRange. induction 1 as [|l chainLogs Hl _ IH]; [reflexivity|].
  rewrite filter_cons, decide_False by lia. exact IH.
Qed.

(** On logs in block order, the logs of a range are those of its lower part
    followed by those of its upper part. *)
Lemma logsInRange_split_sorted chainLogs a b c :
  a <= Z.min b c + 1 ->
  ascendingBlocks chainLogs ->
  logsInRange chainLogs a c
  = logsInRange chainLogs a (Z.min b c) ++ logsInRange chainLogs (Z.min b c + 1) c.
Proof.
  intros Hab. unfold ascendingBlocks.
  induction 1 as [|l chainLogs Hsorted IH Hl]; [reflexivity|].
  unfold logsInRange in *. rewrite !filter_cons.
  destruct (decide (a <= log_blockNumber l <= Z.min b c)) as [Hlow|Hlow].
  - rewrite decide_True, decide_False by lia. simpl. f_equal. exact IH.
  - destruct (decide (Z.min b c + 1 <= log_blockNumber l <= c)) as [Hup|Hup].
    + rewrite decide_True by lia.
      fold (logsInRange chainLogs a (Z.min b c)).
      rewrite (logsInRange_above chainLogs a (Z.min b c)).
      * simpl. f_equal. rewrite IH.
        fold (logsInRange chainLogs a (Z.min b c)).
        rewrite (logsInRange_above chainLogs a (Z.min b c)); [reflexivity|].
        eapply Forall_impl; [exact Hl|]. simpl. intros; lia.
      * eapply Forall_impl; [exact Hl|]. simpl. intros; lia.
    + rewrite decide_False by lia. exact IH.
Qed.

Section HealthyNode.
Context (client : Client) (contractAddress : string) (args : option string)
        (chainLogs : list RawLog).
Hypothesis serves : servesChain client contractAddress args chainLogs.

Lemma forwardLoop_collects currentBlock fromBlock allEvents :
  exists collected,
    (forwardLoop client contractAddress args currentBlock fromBlock allEvents).2
    = Ok collected /\
    collected ≡ₚ allEvents ++ logsInRange chainLogs fromBlock currentBlock.
Proof using serves.
  revert fromBlock allEvents.
  apply (forwardLoop_iter_ind client contractAddress args currentBlock
           (fun fromBlock allEvents r =>
              exists collected,
                r.2 = Ok collected /\
                collected ≡ₚ allEvents
                             ++ logsInRange chainLogs fromBlock currentBlock));
    simpl.
  - intros fromBlock allEvents Hgt. eexists. split; [reflexivity|].
    rewrite logsInRange_empty by lia. rewrite app_nil_r. reflexivity.
  - intros fromBlock allEvents err _ Hlogs. rewrite serves in Hlogs. discriminate.
  - intros fromBlock allEvents logs rest Hle Hlogs (collected & Hrest & Hperm).
    rewrite serves in Hlogs. injection Hlogs as <-.
    exists collected. split; [exact Hrest|].
    rewrite Hperm, <- app_assoc. apply Permutation_app_head.
    rewrite (logsInRange_split chainLogs fromBlock
               (Z.min (fromBlock + 49999) currentBlock + 1) currentBlock) by lia.
    replace (Z.min (fromBlock + 49999) currentBlock + 1 - 1)
      with (Z.min (fromBlock + 49999) currentBlock) by lia.
    apply Permutation_app_comm.
Qed.

Lemma forwardLoop_collects_in_order currentBlock fromBlock allEvents :
  ascendingBlocks chainLogs ->
  (forwardLoop client contractAddress args currentBlock fromBlock allEvents).2
  = Ok (allEvents ++ logsInRange chainLogs fromBlock currentBlock).
Proof using serves.
  intros Hsorted. revert fromBlock allEvents.
  apply (forwardLoop_iter_ind client contractAddress args currentBlock
           (fun fromBlock allEvents r =>
              r.2 = Ok (allEvents
                        ++ logsInRange chainLogs fromBlock currentBlock)));
    simpl.
  - intros fromBlock allEvents Hgt.
    rewrite logsInRange_empty by lia. rewrite app_nil_r. reflexivity.
  - intros fromBlock allEvents err _ Hlogs. rewrite serves in Hlogs. discriminate.
  - intros fromBlock allEvents logs rest Hle Hlogs ->.
    rewrite serves in Hlogs. injection Hlogs as <-.
    rewrite <- app_assoc.
    rewrite (logsInRange_split_sorted chainLogs fromBlock (fromBlock + 49999)
               currentBlock ltac:(lia) Hsorted). reflexivity.
Qed.

End HealthyNode.

Lemma mapM_elem_Throw {A B} (f : A -> result B) (l : list A) x err :
  x ∈ l -> f x = Throw err -> exists err', mapM f l = Throw err'.
Proof.
  induction 1 as [x l|x y l _ IH]; intros Hx; simpl.
  - rewrite Hx. simpl. eauto.
  - destruct (f y); simpl; [|eauto].
    destruct (IH Hx) as [err' ->]. simpl. eauto.
Qed.

Lemma mapM_Forall {A B} (f : A -> result B) (P : B -> Prop) l ys :
  (forall x y, f x = Ok y -> P y) ->
  mapM f l = Ok ys -> Forall P ys.
Proof.
  intros Hf. revert ys. induction l as [|x l IH]; intros ys.
  - intros [= <-]. constructor.
  - intros (y & ys' & Hx & Hrest & ->)%mapM_cons_Ok.
    constructor; [exact (Hf _ _ Hx)|exact (IH _ Hrest)].
Qed.

Lemma decodeEvent_network cfg networkKey log e :
  decodeEvent (NETWORKS cfg networkKey) log = Ok e ->
  taggedWith cfg networkKey e.
Proof.
  unfold decodeEvent, taggedWith.
  destruct (topics log !! 1%nat); [|discriminate].
  destruct (topics log !! 2%nat); [|discriminate]. simpl.
  destruct (JS.BigInt _); [|discriminate]. simpl.
  destruct (JS.BigInt _); [|discriminate]. simpl.
  destruct (NETWORKS cfg networkKey) as [network|]; [|discriminate].
  intros [= <-]. exists network. repeat split; reflexivity.
Qed.

(** X6. On a node that answers every request with the logs of the requested
    range, listed in block order, and whose logs all decode, the forward scan
    returns the decoded logs of [[deploymentStartBlock, currentHeight]]: all
    of them, each once, in the order of the chain. *)
Theorem forward_scan_returns_range_in_chain_order (cfg : Config)
    (client : Client) (contractAddress networkKey : string)
    (merchantAddress : option string) (currentHeight : Z)
    (chainLogs : list RawLog) (decoded : list TransactionEvent) :
  getBlockNumber client = Ok currentHeight ->
  servesChain client contractAddress (receiverArgs merchantAddress) chainLogs ->
  ascendingBlocks chainLogs ->
  mapM (decodeEvent (NETWORKS cfg networkKey))
    (logsInRange chainLogs (deploymentStart cfg networkKey) currentHeight)
  = Ok decoded ->
  fetchEventsFromNetwork cfg client contractAddress networkKey merchantAddress
  = Ok decoded.
Proof.
  intros Hheight Hserve Hsorted Hdecoded.
  unfold fetchEventsFromNetwork, forwardScan. rewrite Hheight. simpl.
  rewrite (forwardLoop_collects_in_order _ _ _ _ Hserve _ _ _ Hsorted).
  simpl. rewrite Hdecoded. reflexivity.
Qed.

(** The sample sepolia node with purchases at blocks 1500 and 70000. *)
Lemma forward_scan_returns_range_in_chain_order_witness :
  fetchEventsFromNetwork Sample.cfg (Sample.node 120000 Sample.twoPurchases)
    "0x1111" "sepolia" None = Ok Sample.twoPurchasesDecoded /\
  map blockNumber Sample.twoPurchasesDecoded = [1500; 70000].
Proof.
  split; [|reflexivity].
  apply (forward_scan_returns_range_in_chain_order Sample.cfg
           (Sample.node 120000 Sample.twoPurchases) "0x1111" "sepolia" None
           120000 Sample.twoPurchases Sample.twoPurchasesDecoded).
  - reflexivity.
  - intros fromBlock toBlock. reflexivity.
  - repeat constructor; simpl; lia.
  - vm_compute. reflexivity.
Defined.

(** X7. A single log of the range that fails to decode costs the network
    all its events: the forward scan and the reverse scan with limit ['all']
    both return the empty sequence. *)
Theorem one_undecodable_log_empties_the_network (cfg : Config)
    (client : Client) (clock : Z -> Z) (contractAddress networkKey : string)
    (merchantAddress : option string) (currentHeight : Z)
    (chainLogs : list RawLog) (log : RawLog) (err : string) :
  getBlockNumber client = Ok currentHeight ->
  servesChain client contractAddress (receiverArgs merchantAddress) chainLogs ->
  log ∈ logsInRange chainLogs (deploymentStart cfg networkKey) currentHeight ->
  decodeEvent (NETWORKS cfg networkKey) log = Throw err ->
  fetchEventsFromNetwork cfg client contractAddress networkKey merchantAddress
  = Ok [] /\
  fetchEventsFromNetworkReverse cfg client clock contractAddress networkKey All
    merchantAddress = Ok [].
Proof.
  intros Hheight Hserve Hin Hthrow. split.
  - unfold fetchEventsFromNetwork, forwardScan. rewrite Hheight. simpl.
    destruct (forwardLoop_collects _ _ _ _ Hserve currentHeight
                (deploymentStart cfg networkKey) []) as (collected & -> & Hperm).
    simpl in *.
    destruct (mapM_elem_Throw (decodeEvent (NETWORKS cfg networkKey)) collected
                log err) as [err' ->]; [|exact Hthrow|reflexivity].
    rewrite Hperm. exact Hin.
  - unfold fetchEventsFromNetworkReverse, reverseScan. rewrite Hheight. simpl.
    destruct (reverseLoop_all_collects _ _ _ _ (deploymentStart cfg networkKey)
                currentHeight [] Hserve) as (collected & -> & Hperm).
    simpl in *.
    destruct (mapM_elem_Throw (decodeEvent (NETWORKS cfg networkKey))
                (JS.sort byBlockDescending collected) log err) as [err' ->];
      [|exact Hthrow|reflexivity].
    rewrite sort_Permutation, Hperm. exact Hin.
Qed.

(** Two good purchases and, at block 60000, a log whose data field lacks its
    second word. *)
Lemma one_undecodable_log_empties_the_network_witness :
  let chainLogs :=
    [Sample.purchase 1500; Fixtures.truncated 60000; Sample.purchase 70000] in
  fetchEventsFromNetwork Sample.cfg (Sample.node 120000 chainLogs) "0x1111"
    "sepolia" None = Ok [] /\
  fetchEventsFromNetworkReverse Sample.cfg (Sample.node 120000 chainLogs)
    Sample.clock "0x1111" "sepolia" All None = Ok [].
Proof.
  intros chainLogs.
  apply (one_undecodable_log_empties_the_network Sample.cfg
           (Sample.node 120000 chainLogs) Sample.clock "0x1111" "sepolia" None
           120000 chainLogs (Fixtures.truncated 60000)
           "SyntaxError: Cannot convert to a BigInt").
  - reflexivity.
  - intros fromBlock toBlock. reflexivity.
  - vm_compute. apply elem_of_cons. right. apply elem_of_cons. left. reflexivity.
  - vm_compute. reflexivity.
Defined.

Lemma forward_events_tagged cfg client contractAddress networkKey merchantAddress :
  exists events,
    fetchEventsFromNetwork cfg client contractAddress networkKey merchantAddress
    = Ok events /\
    Forall (fun e => taggedWith cfg networkKey e /\ timestamp e = None) events.
Proof.
  unfold fetchEventsFromNetwork, forwardScan.
  destruct (getBlockNumber client); simpl; [|eexists; split; [reflexivity|constructor]].
  destruct (forwardLoop _ _ _ _ _ _).2 as [collected|]; simpl;
    [|eexists; split; [reflexivity|constructor]].
  destruct (mapM _ collected) as [events|] eqn:Hdecoded; simpl;
    [|eexists; split; [reflexivity|constructor]].
  exists events. split; [reflexivity|].
  eapply mapM_Forall; [|exact Hdecoded]. intros log e He. split.
  - exact (decodeEvent_network _ _ _ _ He).
  - exact (proj2 (decodeEvent_fields _ _ _ He)).
Qed.

Lemma reverse_events_tagged cfg client clock contractAddress networkKey limit
    merchantAddress :
  exists events,
    fetchEventsFromNetworkReverse cfg client clock contractAddress networkKey
      limit merchantAddress = Ok events /\
    Forall (fun e => taggedWith cfg networkKey e /\ stamped e) events.
Proof.
  destruct (fetchEventsFromNetworkReverse_cases cfg client clock contractAddress
              networkKey limit merchantAddress)
    as [[Hfetched _]|(currentBlock & collected & decoded & _ & _ & Hdecoded
                      & Hfetched)];
    cbv zeta in Hfetched; eexists; (split; [exact Hfetched|]); [constructor|].
  apply Forall_forall. intros e (e0 & -> & He0)%list_elem_of_fmap. split.
  - assert (Htag : Forall (taggedWith cfg networkKey) decoded).
    { eapply mapM_Forall; [|exact Hdecoded]. intros log e He.
      exact (decodeEvent_network _ _ _ _ He). }
    eapply Forall_forall in Htag; [|exact He0].
    destruct Htag as (network & Hn & Hc & Hname). exists network. auto.
  - unfold stamped. simpl. eauto.
Qed.

(** X8. Every event a network scan returns carries the chain id and the
    name that the configuration registers under the network key of the scan;
    the events of a forward scan carry no timestamp and those of a reverse
    scan carry one. *)
Theorem scan_events_carry_their_network (cfg : Config) (client : Client)
    (clock : Z -> Z) (contractAddress networkKey : string) (limit : Limit)
    (merchantAddress : option string) :
  (exists events,
      fetchEventsFromNetwork cfg client contractAddress networkKey
        merchantAddress = Ok events /\
      Forall (fun e => taggedWith cfg networkKey e /\ timestamp e = None) events) /\
  (exists events,
      fetchEventsFromNetworkReverse cfg client clock contractAddress networkKey
        limit merchantAddress = Ok events /\
      Forall (fun e => taggedWith cfg networkKey e /\ stamped e) events).
Proof.
  split; [apply forward_events_tagged|apply reverse_events_tagged].
Qed.

(** X9. A scan under a network key that the configuration does not know
    returns the empty sequence, whatever the node holds. *)
Theorem unknown_network_key_yields_nothing (cfg : Config) (client : Client)
    (clock : Z -> Z) (contractAddress networkKey : string) (limit : Limit)
    (merchantAddress : option string) :
  NETWORKS cfg networkKey = None ->
  fetchEventsFromNetwork cfg client contractAddress networkKey merchantAddress
  = Ok [] /\
  fetchEventsFromNetworkReverse cfg client clock contractAddress networkKey
    limit merchantAddress = Ok [].
Proof.
  intros Hnone.
  assert (Hempty : forall (P : TransactionEvent -> Prop) events,
             Forall (fun e => taggedWith cfg networkKey e /\ P e) events ->
             events = []).
  { intros P [|e events]; [reflexivity|].
    intros [[(network & Hsome & _) _] _]%Forall_cons. congruence. }
  split.
  - destruct (forward_events_tagged cfg client contractAddress networkKey
                merchantAddress) as (events & -> & Htag).
    f_equal. exact (Hempty _ _ Htag).
  - destruct (reverse_events_tagged cfg client clock contractAddress networkKey
                limit merchantAddress) as (events & -> & Htag).
    f_equal. exact (Hempty _ _ Htag).
Qed.

(** The sample node scanned under a key the sample configuration lacks. *)
Lemma unknown_network_key_yields_nothing_witness :
  fetchEventsFromNetwork Sample.cfg (Sample.node 120000 Sample.twoPurchases)
    "0x1111" "goerli" None = Ok [] /\
  fetchEventsFromNetworkReverse Sample.cfg
    (Sample.node 120000 Sample.twoPurchases) Sample.clock "0x1111" "goerli"
    (Num 5) None = Ok [].
Proof.
  exact (unknown_network_key_yields_nothing Sample.cfg
           (Sample.node 120000 Sample.twoPurchases) Sample.clock "0x1111"
           "goerli" (Num 5) None eq_refl).
Defined.

(** ** The latest events *)

Section SortedPrefix.
Context {A : Type} (cmp : A -> A -> Z) (R : relation A) (P : A -> Prop).
Hypothesis R_trans : Transitive R.
Hypothesis cmp_le : forall x y, P x -> P y -> cmp x y <= 0 -> R x y.
Hypothesis cmp_gt : forall x y, P x -> P y -> ~ cmp x y <= 0 -> R y x.

(** The first [k] elements of the sorted array and the others: together they
    are the array, and each of the first comes before each of the others. *)
Lemma sort_take_drop l k :
  Forall P l ->
  take k (JS.sort cmp l) ++ drop k (JS.sort cmp l) ≡ₚ l /\
  forall r x, r ∈ take k (JS.sort cmp l) -> x ∈ drop k (JS.sort cmp l) -> R r x.
Proof using R_trans cmp_le cmp_gt.
  intros HP. split; [rewrite take_drop; apply sort_Permutation|].
  pose proof (sort_StronglySorted cmp R P R_trans cmp_le cmp_gt l HP) as Hsorted.
  rewrite <- (take_drop k (JS.sort cmp l)) in Hsorted.
  intros r x. exact (StronglySorted_app_1_elem_of R _ _ r x Hsorted).
Qed.

End SortedPrefix.

Lemma applyLimit_Num {A} (n : Z) (l : list A) :
  0 <= n -> applyLimit (Num n) l = take (Z.to_nat n) l.
Proof.
  intros Hn. simpl. unfold JS.slice. change (JS.rel_index (length l) 0) with 0%nat.
  rewrite drop_0. unfold JS.rel_index. destruct (Z.ltb_spec n 0); [lia|].
  rewrite Nat.sub_0_r.
  destruct (decide (Z.to_nat n <= length l)%nat).
  - f_equal. lia.
  - rewrite !take_ge by lia. reflexivity.
Qed.

Lemma mapM_decodable {A B} (f : A -> result B) (l : list A) :
  Forall (fun x => exists y, f x = Ok y) l -> exists ys, mapM f l = Ok ys.
Proof.
  induction 1 as [|x l [y Hy] _ [ys IH]]; simpl; [eauto|].
  rewrite Hy, IH. simpl. eauto.
Qed.

Lemma mapM_Ok_decodable {A B} (f : A -> result B) (l : list A) ys :
  mapM f l = Ok ys -> Forall (fun x => exists y, f x = Ok y) l.
Proof.
  revert ys. induction l as [|x l IH]; intros ys; [constructor|].
  intros (y & ys' & Hx & Hrest & ->)%mapM_cons_Ok.
  constructor; [eauto|exact (IH _ Hrest)].
Qed.

Lemma mapM_length {A B} (f : A -> result B) (l : list A) ys :
  mapM f l = Ok ys -> length ys = length l.
Proof.
  revert ys. induction l as [|x l IH]; intros ys.
  - intros [= <-]. reflexivity.
  - intros (y & ys' & _ & Hrest & ->)%mapM_cons_Ok. simpl. f_equal. exact (IH _ Hrest).
Qed.

(** With a numeric limit on a healthy node the loop collects the logs from
    some block [low] up to the tip, and it either reached the deployment
    block or holds at least [limit] logs. *)
Lemma reverseLoop_limit_collects client contractAddress args chainLogs n
    startBlock toBlock collectedEvents :
  servesChain client contractAddress args chainLogs ->
  startBlock <= toBlock + 1 ->
  exists collected low,
    (reverseLoop client contractAddress args (Num n) startBlock toBlock
       collectedEvents).2 = Ok collected /\
    collected ≡ₚ collectedEvents ++ logsInRange chainLogs low toBlock /\
    startBlock <= low <= toBlock + 1 /\
    (low = startBlock \/ n <= Z.of_nat (length collected)).
Proof.
  intros Hserve. revert toBlock collectedEvents.
  apply (reverseLoop_iter_ind client contractAddress args (Num n) startBlock
           (fun toBlock collectedEvents r =>
              startBlock <= toBlock + 1 ->
              exists collected low,
                r.2 = Ok collected /\
                collected ≡ₚ collectedEvents ++ logsInRange chainLogs low toBlock /\
                startBlock <= low <= toBlock + 1 /\
                (low = startBlock \/ n <= Z.of_nat (length collected)))); simpl.
  - intros toBlock acc Hlt Hle. exists acc, startBlock.
    split; [reflexivity|]. rewrite logsInRange_empty by lia.
    split; [rewrite app_nil_r; reflexivity|]. split; [lia|]. left; reflexivity.
  - intros toBlock acc err _ Hlogs. rewrite Hserve in Hlogs. discriminate.
  - intros toBlock acc logs Hle Hlogs Hbreak _.
    rewrite Hserve in Hlogs. injection Hlogs as <-.
    eexists _, (Z.max (toBlock - 50000) startBlock).
    split; [reflexivity|]. split; [reflexivity|]. split; [lia|].
    destruct Hbreak as [Hlimit|Hstart]; [right|left; exact Hstart].
    destruct (Z.geb_spec (Z.of_nat (length (acc ++ logsInRange chainLogs
                (Z.max (toBlock - 50000) startBlock) toBlock))) n);
      [lia|discriminate].
  - intros toBlock acc logs rest Hle Hlogs _ Hgt IH _.
    rewrite Hserve in Hlogs. injection Hlogs as <-.
    destruct (IH ltac:(lia)) as (collected & low & Hrest & Hperm & Hlow & Hstop).
    exists collected, low. split; [exact Hrest|]. split; [|split; [lia|exact Hstop]].
    rewrite Hperm, <- app_assoc. apply Permutation_app_head.
    symmetry. apply logsInRange_split. lia.
Qed.

Lemma elem_of_logsInRange chainLogs a b l :
  l ∈ logsInRange chainLogs a b -> a <= log_blockNumber l <= b.
Proof. unfold logsInRange. rewrite list_elem_of_filter. tauto. Qed.

(** X10. On a healthy node whose logs decode, a reverse scan with a limit
    [n >= 0] returns the latest events of the range: it returns [n] events,
    or all of them when the range holds fewer, and no log of the range that
    it leaves out has a higher block number than a log it returns. *)
Theorem reverse_scan_returns_the_latest (cfg : Config) (client : Client)
    (clock : Z -> Z) (contractAddress networkKey : string) (n : Z)
    (merchantAddress : option string) (currentHeight : Z)
    (chainLogs : list RawLog) :
  let range :=
    logsInRange chainLogs (deploymentStart cfg networkKey) currentHeight in
  getBlockNumber client = Ok currentHeight ->
  servesChain client contractAddress (receiverArgs merchantAddress) chainLogs ->
  0 <= n ->
  Forall (fun l => exists e, decodeEvent (NETWORKS cfg networkKey) l = Ok e) range ->
  exists events returned left_out,
    fetchEventsFromNetworkReverse cfg client clock contractAddress networkKey
      (Num n) merchantAddress = Ok events /\
    mapM (decodeEvent (NETWORKS cfg networkKey)) returned
    = Ok (map withoutTimestamp events) /\
    returned ++ left_out ≡ₚ range /\
    length events = Nat.min (Z.to_nat n) (length range) /\
    forall r x, r ∈ returned -> x ∈ left_out ->
                log_blockNumber x <= log_blockNumber r.
Proof.
  intros range Hheight Hserve Hn Hdecodable.
  set (startBlock := deploymentStart cfg networkKey) in *.
  assert (Hcollect : exists collected low,
             (reverseLoop client contractAddress (receiverArgs merchantAddress)
                (Num n) startBlock currentHeight []).2 = Ok collected /\
             collected ≡ₚ logsInRange chainLogs low currentHeight /\
             range ≡ₚ collected ++ logsInRange chainLogs startBlock (low - 1) /\
             startBlock <= low /\
             (logsInRange chainLogs startBlock (low - 1) = []
              \/ n <= Z.of_nat (length collected))).
  { destruct (decide (startBlock <= currentHeight + 1)) as [Hle|Hgt].
    - destruct (reverseLoop_limit_collects client contractAddress
                  (receiverArgs merchantAddress) chainLogs n startBlock
                  currentHeight [] Hserve Hle)
        as (collected & low & Hloop & Hperm & Hlow & Hstop).
      simpl in Hperm. exists collected, low. split; [exact Hloop|].
      split; [exact Hperm|]. split; [|split; [lia|]].
      + rewrite Hperm. subst range. apply logsInRange_split. lia.
      + destruct Hstop as [->|Hstop]; [left|right; exact Hstop].
        apply logsInRange_empty. lia.
    - exists [], startBlock. rewrite reverseLoop_while, decide_False by lia.
      split; [reflexivity|]. subst range.
      rewrite !logsInRange_empty by lia. repeat split; try reflexivity; try lia.
      left; reflexivity. }
  destruct Hcollect as (collected & low & Hloop & Hperm & Hrange & Hlow & Hstop).
  set (sorted := JS.sort byBlockDescending collected).
  destruct (sort_take_drop byBlockDescending
              (fun a b => log_blockNumber a >= log_blockNumber b)
              (fun _ => True) ltac:(intros a b c; lia)
              ltac:(unfold byBlockDescending; intros; lia)
              ltac:(unfold byBlockDescending; intros; lia)
              collected (Z.to_nat n) ltac:(apply Forall_true; intros; exact I))
    as [Hsplit Horder].
  fold sorted in Hsplit, Horder.
  assert (Hreturned : Forall (fun l => exists e,
                          decodeEvent (NETWORKS cfg networkKey) l = Ok e)
                        (take (Z.to_nat n) sorted)).
  { apply Forall_forall. intros l Hl.
    eapply Forall_forall in Hdecodable; [exact Hdecodable|].
    rewrite Hrange, <- Hsplit. rewrite !elem_of_app. auto. }
  destruct (mapM_decodable _ _ Hreturned) as [decoded Hdecoded].
  exists (map (resolved client clock) decoded), (take (Z.to_nat n) sorted),
    (drop (Z.to_nat n) sorted ++ logsInRange chainLogs startBlock (low - 1)).
  split; [|split; [|split; [|split]]].
  - unfold fetchEventsFromNetworkReverse, reverseScan. rewrite Hheight. simpl.
    fold startBlock. rewrite Hloop. simpl.
    change (JS.slice 0 n ?l) with (applyLimit (Num n) l).
    rewrite applyLimit_Num by exact Hn. fold sorted. rewrite Hdecoded. simpl.
    rewrite attachTimestamps_resolved. reflexivity.
  - rewrite map_withoutTimestamp_resolved.
    rewrite (mapM_withoutTimestamp _ _ _ Hdecoded). exact Hdecoded.
  - rewrite app_assoc, Hsplit. symmetry. exact Hrange.
  - rewrite length_map, (mapM_length _ _ _ Hdecoded), length_take.
    assert (Hlen : length sorted = length collected)
      by (subst sorted; rewrite sort_Permutation; reflexivity).
    rewrite Hrange, length_app, Hlen.
    destruct Hstop as [->|Hstop]; simpl; lia.
  - intros r x Hr [Hx|Hx]%elem_of_app.
    + specialize (Horder r x Hr Hx). simpl in Horder. lia.
    + apply elem_of_logsInRange in Hx.
      assert (Hrc : r ∈ logsInRange chainLogs low currentHeight).
      { rewrite <- Hperm, <- Hsplit. apply elem_of_app. left. exact Hr. }
      apply elem_of_logsInRange in Hrc. lia.
Qed.

(** Seven purchases on the sample sepolia node and a limit of three: the
    first chunk holds only two of them, the scan goes on to the second chunk
    and returns the purchases of blocks 119000, 90000 and 70000. *)
Lemma reverse_scan_returns_the_latest_witness :
  exists events,
    fetchEventsFromNetworkReverse Sample.cfg
      (Sample.node 120000 Fixtures.sevenPurchases) Sample.clock "0x1111"
      "sepolia" (Num 3) None = Ok events /\
    map blockNumber events = [119000; 90000; 70000].
Proof.
  destruct (reverse_scan_returns_the_latest Sample.cfg
              (Sample.node 120000 Fixtures.sevenPurchases) Sample.clock "0x1111"
              "sepolia" 3 None 120000 Fixtures.sevenPurchases eq_refl
              ltac:(intros fromBlock toBlock; reflexivity) ltac:(lia)
              (mapM_Ok_decodable (decodeEvent (NETWORKS Sample.cfg "sepolia"))
                 (logsInRange Fixtures.sevenPurchases
                    (deploymentStart Sample.cfg "sepolia") 120000)
                 Fixtures.sevenPurchasesDecoded ltac:(vm_compute; reflexivity)))
    as (events & returned & left_out & Hfetched & _).
  exists events. split; [exact Hfetched|].
  vm_compute in Hfetched. injection Hfetched as <-. reflexivity.
Defined.

(** ** The export across networks *)

Lemma applyLimit_cut {A} (limit : Limit) (l : list A) :
  exists k,
    applyLimit limit l = take k l /\
    (limit = All -> drop k l = []) /\
    (forall n, limit = Num n -> 0 <= n -> k = Z.to_nat n).
Proof.
  destruct limit as [|n].
  - exists (length l). simpl. rewrite take_ge, drop_ge by lia.
    repeat split. discriminate.
  - destruct (decide (0 <= n)) as [Hn|Hn].
    + exists (Z.to_nat n). split; [apply applyLimit_Num; exact Hn|].
      split; [discriminate|]. intros ? [= <-] _. reflexivity.
    + destruct (applyLimit_take (Num n) l) as (k & Hk & _).
      exists k. split; [exact Hk|]. split; [discriminate|].
      intros ? [= <-] ?. lia.
Qed.

(** X11. [fetchTransactionsForExport] returns a selection of the events of
    the three network pipelines taken together: with limit ['all'] it returns
    all of them, with a limit [n >= 0] it returns [n] of them (all when they
    are fewer). When the blocks of the three nodes report times within the
    range of a [Date], the selection is that of the latest: no event it
    leaves out has a later timestamp than an event it returns. *)
Theorem export_returns_the_latest_across_networks (cfg : Config)
    (svc : TransactionService) (clock : string -> Z -> Z) (limit : Limit)
    (merchantAddress : option string) :
  exists sepolia etc mordor events left_out,
    fetchEventsFromNetworkReverse cfg (sepoliaClient svc) (clock "sepolia")
      (CONTRACTS_stablepay cfg) "sepolia" limit merchantAddress = Ok sepolia /\
    fetchEventsFromNetworkReverse cfg (etcClient svc) (clock "ethereum-classic")
      (CONTRACTS_stablepay_etc cfg) "ethereum-classic" limit merchantAddress
    = Ok etc /\
    fetchEventsFromNetworkReverse cfg (mordorClient svc) (clock "mordor")
      (CONTRACTS_stablepay_mordor cfg) "mordor" limit merchantAddress
    = Ok mordor /\
    fetchTransactionsForExport cfg svc clock limit merchantAddress = Ok events /\
    events ++ left_out ≡ₚ sepolia ++ etc ++ mordor /\
    (limit = All -> left_out = []) /\
    (forall n, limit = Num n -> 0 <= n ->
               length events
               = Nat.min (Z.to_nat n) (length (sepolia ++ etc ++ mordor))) /\
    (reportsDates (sepoliaClient svc) ->
     reportsDates (etcClient svc) ->
     reportsDates (mordorClient svc) ->
     forall r x tr tx,
       r ∈ events -> x ∈ left_out ->
       timestamp r = Some (JS.DateAt tr) -> timestamp x = Some (JS.DateAt tx) ->
       tx <= tr).
Proof.
  destruct (fetchEventsFromNetworkReverse_stamped cfg (sepoliaClient svc)
              (clock "sepolia") (CONTRACTS_stablepay cfg) "sepolia" limit
              merchantAddress) as (sepolia & Hsepolia & _).
  destruct (fetchEventsFromNetworkReverse_stamped cfg (etcClient svc)
              (clock "ethereum-classic") (CONTRACTS_stablepay_etc cfg)
              "ethereum-classic" limit merchantAddress) as (etc & Hetc & _).
  destruct (fetchEventsFromNetworkReverse_stamped cfg (mordorClient svc)
              (clock "mordor") (CONTRACTS_stablepay_mordor cfg) "mordor" limit
              merchantAddress) as (mordor & Hmordor & _).
  set (allEvents := sepolia ++ etc ++ mordor).
  destruct (applyLimit_cut limit (JS.sort byTimestampDescending allEvents))
    as (k & Hcut & Hrest & Hk).
  exists sepolia, etc, mordor,
    (take k (JS.sort byTimestampDescending allEvents)),
    (drop k (JS.sort byTimestampDescending allEvents)).
  split; [exact Hsepolia|]. split; [exact Hetc|]. split; [exact Hmordor|].
  split; [|split; [|split; [exact Hrest|split]]].
  - unfold fetchTransactionsForExport. rewrite Hsepolia, Hetc, Hmordor. simpl.
    fold allEvents. change (applyLimit limit ?l) with (applyLimit limit l).
    rewrite <- Hcut. reflexivity.
  - rewrite take_drop. apply sort_Permutation.
  - intros n Hn Hpos. rewrite (Hk n Hn Hpos), length_take.
    rewrite sort_Permutation. reflexivity.
  - intros Hds Hde Hdm.
    assert (Hdated : Forall dated allEvents).
    { subst allEvents. rewrite !Forall_app. split; [|split].
      - exact (fetchEventsFromNetworkReverse_dated _ _ _ _ _ _ _ _ Hds Hsepolia).
      - exact (fetchEventsFromNetworkReverse_dated _ _ _ _ _ _ _ _ Hde Hetc).
      - exact (fetchEventsFromNetworkReverse_dated _ _ _ _ _ _ _ _ Hdm Hmordor). }
    destruct (sort_take_drop byTimestampDescending laterOrEqual dated
                laterOrEqual_trans byTimestampDescending_le
                byTimestampDescending_gt allEvents k Hdated) as [_ Horder].
    intros r x tr tx Hr Hx Htr Htx.
    destruct (Horder r x Hr Hx) as (tr' & tx' & Htr' & Htx' & Hge).
    rewrite Htr in Htr'. rewrite Htx in Htx'.
    injection Htr' as <-. injection Htx' as <-. lia.
Qed.

(** The sample service with a global limit of four: the pipeline of sepolia
    returns four events, that of mordor three; of these seven the export
    returns four, and none of the three left out is later than one of
    them. *)
Lemma export_returns_the_latest_across_networks_witness :
  exists events left_out,
    fetchTransactionsForExport Sample.cfg Sample.service (fun _ => Sample.clock)
      (Num 4) None = Ok events /\
    length events = 4%nat /\
    length left_out = 3%nat /\
    forall r x tr tx,
      r ∈ events -> x ∈ left_out ->
      timestamp r = Some (JS.DateAt tr) -> timestamp x = Some (JS.DateAt tx) ->
      tx <= tr.
Proof.
  destruct (export_returns_the_latest_across_networks Sample.cfg Sample.service
              (fun _ => Sample.clock) (Num 4) None)
    as (sepolia & etc & mordor & events & left_out & Hsepolia & Hetc & Hmordor
        & Hfetched & Hsplit & _ & Hlength & Hlatest).
  exists events, left_out. split; [exact Hfetched|].
  vm_compute in Hsepolia. vm_compute in Hetc. vm_compute in Hmordor.
  injection Hsepolia as <-. injection Hetc as <-. injection Hmordor as <-.
  pose proof (Hlength 4 eq_refl ltac:(lia)) as Hfour.
  change (length events = 4%nat) in Hfour.
  apply Permutation_length in Hsplit. rewrite length_app in Hsplit.
  match type of Hsplit with _ = ?n => change n with 7%nat in Hsplit end.
  split; [exact Hfour|]. split.
  - lia.
  - exact (Hlatest (node_reportsDates 120000 _ ltac:(lia))
             (rpcError_reportsDates 90000)
             (node_reportsDates 70000 _ ltac:(lia))).
Defined.

(** ** One timestamp per block *)

(** X12. Events of the same block leave [attachTimestamps] with the same
    timestamp, also when the lookup of that block failed: each block is
    resolved once and its result is shared. *)
Theorem events_of_one_block_share_their_timestamp (client : Client)
    (clock : Z -> Z) (events : list TransactionEvent) :
  exists resolved_events,
    attachTimestamps client clock events = Ok resolved_events /\
    forall e1 e2,
      e1 ∈ resolved_events -> e2 ∈ resolved_events ->
      blockNumber e1 = blockNumber e2 -> timestamp e1 = timestamp e2.
Proof.
  eexists. split; [apply attachTimestamps_resolved|].
  intros e1 e2 (a & -> & _)%list_elem_of_fmap (b & -> & _)%list_elem_of_fmap.
  simpl. intros ->. reflexivity.
Qed.

(** ** Logs that do not decode *)

Lemma length_chars s : length (JS.chars s) = String.length s.
Proof. induction s as [|c s IH]; simpl; [reflexivity|]. f_equal. exact IH. Qed.

Lemma length_str l : String.length (JS.str l) = length l.
Proof. rewrite <- length_chars, chars_str. reflexivity. Qed.

(** X13. A log whose data field has no second word, 66 characters or fewer
    with the [0x], does not decode: [BigInt] rejects the empty numeral
    ["0x"] of the base-coin amount. *)
Theorem log_without_second_word_does_not_decode (network : option NetworkConfig)
    (event : RawLog) :
  (String.length (data event) <= 66)%nat ->
  exists err, decodeEvent network event = Throw err.
Proof.
  intros Hlen. unfold decodeEvent.
  destruct (topics event !! 1%nat); [|simpl; eauto].
  destruct (topics event !! 2%nat); [|simpl; eauto]. simpl.
  destruct (JS.BigInt _); [|simpl; eauto]. simpl.
  assert (JS.str_slice_from 64 (JS.str_slice_from 2 (data event)) = "") as ->.
  { unfold JS.str_slice_from. rewrite chars_str. unfold JS.slice_from.
    rewrite drop_drop, drop_ge; [reflexivity|].
    unfold JS.rel_index. change (2 <? 0) with false. change (64 <? 0) with false.
    cbv iota. rewrite length_drop, length_chars. lia. }
  simpl. eauto.
Qed.

(** The truncated sample log: 0x and one word. *)
Lemma log_without_second_word_does_not_decode_witness :
  decodeEvent (NETWORKS Sample.cfg "sepolia") (Fixtures.truncated 60000)
  = Throw "SyntaxError: Cannot convert to a BigInt".
Proof.
  destruct (log_without_second_word_does_not_decode
              (NETWORKS Sample.cfg "sepolia") (Fixtures.truncated 60000)
              ltac:(simpl; lia)) as [err Herr].
  rewrite Herr. vm_compute in Herr. injection Herr as <-. reflexivity.
Defined.

(** ** Address normalisation, again *)

Lemma slice_from_short {A} (l : list A) :
  (length l <= 40)%nat -> JS.slice_from (-40) l = l.
Proof.
  intros Hlen. unfold JS.slice_from, JS.rel_index.
  change (-40 <? 0) with true. cbv iota.
  replace (Z.to_nat _) with 0%nat by lia. reflexivity.
Qed.

Lemma length_slice_from_40 {A} (l : list A) :
  (length (JS.slice_from (-40) l) <= 40)%nat.
Proof.
  unfold JS.slice_from, JS.rel_index. change (-40 <? 0) with true. cbv iota.
  rewrite length_drop. lia.
Qed.

(** X14. [formatAddress] is idempotent on every string, and its result is
    [0x] followed by at most 40 characters. *)
Theorem formatAddress_idempotent (address : string) :
  formatAddress (formatAddress address) = formatAddress address /\
  exists clean,
    formatAddress address = ("0x" ++ JS.str clean)%string /\
    (length clean <= 40)%nat.
Proof.
  set (clean := JS.slice_from (-40) (JS.chars (JS.replace "0x" "" address))).
  assert (Hfmt : formatAddress address = ("0x" ++ JS.str clean)%string)
    by reflexivity.
  pose proof (length_slice_from_40 (JS.chars (JS.replace "0x" "" address)))
    as Hlen. fold clean in Hlen.
  split; [|exists clean; split; [exact Hfmt|exact Hlen]].
  rewrite Hfmt, formatAddress_prefixed, slice_from_short by exact Hlen.
  reflexivity.
Qed.

(** X15. A value of 20 bytes or fewer behind its [0x] is returned as it is:
    [formatAddress] does not pad a short value to 20 bytes. *)
Theorem formatAddress_does_not_pad (value : list ascii) :
  (length value <= 40)%nat ->
  formatAddress ("0x" ++ JS.str value)%string = ("0x" ++ JS.str value)%string.
Proof.
  intros Hlen. rewrite formatAddress_prefixed, slice_from_short by exact Hlen.
  reflexivity.
Qed.

(** A two-byte value. *)
Lemma formatAddress_does_not_pad_witness :
  formatAddress "0x12ab" = "0x12ab".
Proof.
  exact (formatAddress_does_not_pad (JS.chars "12ab") ltac:(simpl; lia)).
Defined.

(** * The transactions page *)

Lemma find_none {A} (p : A -> bool) (l : list A) :
  Forall (fun x => p x = false) l -> Page.find p l = None.
Proof. induction 1 as [|x l Hx _ IH]; simpl; [reflexivity|]. rewrite Hx. exact IH. Qed.

Lemma find_first {A} (p : A -> bool) (l1 l2 : list A) x :
  Forall (fun y => p y = false) l1 -> p x = true ->
  Page.find p (l1 ++ x :: l2) = Some x.
Proof.
  induction 1 as [|y l1 Hy _ IH]; simpl; intros Hx; [rewrite Hx; reflexivity|].
  rewrite Hy. exact (IH Hx).
Qed.

(** X16. The explorer link of a transaction is the explorer URL of the first
    registered network with the transaction's chain id, followed by [/tx/]
    and the hash; when no network has that chain id, or that network has no
    explorer URL, the link points to the Sepolia explorer. *)
Theorem getExplorerUrl_first_match_or_sepolia (before after : list Page.Network)
    (network : Page.Network) (networks : list Page.Network) (chain : Z)
    (txHash : string) :
  (Forall (fun n => Page.chainId n <> chain) networks ->
   Page.getExplorerUrl networks chain txHash
   = ("https://sepolia.etherscan.io/tx/" ++ txHash)%string) /\
  (Forall (fun n => Page.chainId n <> chain) before ->
   Page.chainId network = chain ->
   Page.getExplorerUrl (before ++ network :: after) chain txHash
   = match Page.explorerUrl network with
     | Some (String c url) => (String c url ++ "/tx/" ++ txHash)%string
     | _ => ("https://sepolia.etherscan.io/tx/" ++ txHash)%string
     end).
Proof.
  split.
  - intros Hnone. unfold Page.getExplorerUrl. rewrite find_none; [reflexivity|].
    eapply Forall_impl; [exact Hnone|]. simpl. intros n Hn. apply Z.eqb_neq. exact Hn.
  - intros Hbefore Hchain. unfold Page.getExplorerUrl.
    rewrite (find_first _ before after network).
    + destruct network as [c [[|ch url]|]]; reflexivity.
    + eapply Forall_impl; [exact Hbefore|]. simpl. intros n Hn.
      apply Z.eqb_neq. exact Hn.
    + apply Z.eqb_eq. exact Hchain.
Qed.

(** X17. The shortened form of the page never exceeds 13 characters; of a
    string of 10 characters or more it shows the first six and the last
    four, and a string of four characters or fewer is shown twice, before
    and after the dots. *)
Theorem page_formatAddress_shape (address : list ascii) :
  let shown := JS.chars (Page.formatAddress (JS.str address)) in
  (length shown <= 13)%nat /\
  ((10 <= length address)%nat ->
   shown = take 6 address ++ JS.chars "..." ++ drop (length address - 4) address /\
   length shown = 13%nat) /\
  ((length address <= 4)%nat ->
   shown = address ++ JS.chars "..." ++ address).
Proof.
  intros shown.
  assert (Hshown : shown = take 6 address ++ JS.chars "..."
                           ++ drop (length address - 4) address).
  { subst shown. unfold Page.formatAddress, JS.str_slice, JS.str_slice_from.
    rewrite !chars_append, !chars_str. f_equal; [|f_equal].
    - unfold JS.slice. change (JS.rel_index (length address) 0) with 0%nat.
      rewrite drop_0. unfold JS.rel_index. change (6 <? 0) with false. cbv iota.
      rewrite Nat.sub_0_r. change (Z.to_nat 6) with 6%nat.
      destruct (decide (6 <= length address)%nat).
      + f_equal. lia.
      + rewrite !take_ge by lia. reflexivity.
    - unfold JS.slice_from, JS.rel_index. change (-4 <? 0) with true. cbv iota.
      f_equal. lia. }
  rewrite Hshown. split; [|split].
  - rewrite !length_app, length_take, length_drop.
    change (length (JS.chars "...")) with 3%nat. lia.
  - intros Hlong. split; [reflexivity|].
    rewrite !length_app, length_take, length_drop.
    change (length (JS.chars "...")) with 3%nat. lia.
  - intros Hshort. rewrite take_ge by lia.
    replace (length address - 4)%nat with 0%nat by lia. reflexivity.
Qed.

Lemma elem_of_toggle (x y : string) (l : list string) :
  y ∈ Page.toggle x l <-> if decide (y = x) then x ∉ l else y ∈ l.
Proof.
  unfold Page.toggle. destruct (decide (x ∈ l)) as [Hin|Hin].
  - rewrite list_elem_of_filter. destruct (decide (y = x)) as [->|Hne]; tauto.
  - rewrite elem_of_app, list_elem_of_singleton.
    destruct (decide (y = x)) as [->|Hne]; tauto.
Qed.

(** X18. Toggling a status flips whether that status is selected and
    nothing else: every other status keeps its selection, and the dates, the
    amounts and the risk levels of the filter are unchanged. Toggling a risk
    level does the same on the risk levels. *)
Theorem toggles_flip_one_selection (s other : string)
    (prev : Page.FilterCriteria) :
  let next := Page.handleToggleStatus s prev in
  let next' := Page.handleToggleRiskLevel s prev in
  (s ∈ Page.status next <-> s ∉ Page.status prev) /\
  (other <> s -> (other ∈ Page.status next <-> other ∈ Page.status prev)) /\
  (Page.dateFrom next, Page.dateTo next, Page.amountMin next,
   Page.amountMax next, Page.riskLevel next)
  = (Page.dateFrom prev, Page.dateTo prev, Page.amountMin prev,
     Page.amountMax prev, Page.riskLevel prev) /\
  (s ∈ Page.riskLevel next' <-> s ∉ Page.riskLevel prev) /\
  (other <> s -> (other ∈ Page.riskLevel next' <-> other ∈ Page.riskLevel prev)) /\
  (Page.dateFrom next', Page.dateTo next', Page.amountMin next',
   Page.amountMax next', Page.status next')
  = (Page.dateFrom prev, Page.dateTo prev, Page.amountMin prev,
     Page.amountMax prev, Page.status prev).
Proof.
  intros next next'. simpl.
  split; [rewrite elem_of_toggle, decide_True by reflexivity; reflexivity|].
  split; [intros Hne; rewrite elem_of_toggle, decide_False by exact Hne; reflexivity|].
  split; [reflexivity|].
  split; [rewrite elem_of_toggle, decide_True by reflexivity; reflexivity|].
  split; [intros Hne; rewrite elem_of_toggle, decide_False by exact Hne; reflexivity|].
  reflexivity.
Qed.

Lemma filter_absent (x : string) (l : list string) :
  x ∉ l -> filter (fun s => s <> x) l = l.
Proof.
  induction l as [|y l IH]; [reflexivity|].
  rewrite not_elem_of_cons. intros [Hne Hin].
  rewrite filter_cons, decide_True by congruence. f_equal. exact (IH Hin).
Qed.

(** X19. Toggling a status that is not selected and toggling it again gives
    the filter state back exactly; in particular two toggles on the reset
    state leave no filter active, while one toggle activates the filters. *)
Theorem toggle_twice_restores (s : string) (prev : Page.FilterCriteria) :
  s ∉ Page.status prev ->
  Page.handleToggleStatus s (Page.handleToggleStatus s prev) = prev /\
  Page.hasActiveFilters (Page.handleToggleStatus s Page.handleResetFilters) = true /\
  Page.hasActiveFilters
    (Page.handleToggleStatus s
       (Page.handleToggleStatus s Page.handleResetFilters)) = false.
Proof.
  intros Hin.
  assert (Htwice : forall l, s ∉ l -> Page.toggle s (Page.toggle s l) = l).
  { intros l Hl. unfold Page.toggle at 2. rewrite decide_False by exact Hl.
    unfold Page.toggle. rewrite decide_True by (apply elem_of_app; right; left).
    rewrite filter_app, filter_absent by exact Hl.
    rewrite filter_cons, decide_False by (intros H; apply H; reflexivity).
    apply app_nil_r. }
  split; [|split].
  - unfold Page.handleToggleStatus. simpl. rewrite Htwice by exact Hin.
    destruct prev. reflexivity.
  - reflexivity.
  - unfold Page.handleToggleStatus. simpl.
    rewrite Htwice by apply not_elem_of_nil. reflexivity.
Qed.

(** The status ["completed"] on a filter with a date and a risk level set. *)
Lemma toggle_twice_restores_witness :
  let prev :=
    {| Page.dateFrom := "2025-01-01"; Page.dateTo := ""; Page.amountMin := "";
       Page.amountMax := ""; Page.status := ["pending"];
       Page.riskLevel := ["high"] |} in
  Page.status (Page.handleToggleStatus "completed" prev) = ["pending"; "completed"] /\
  Page.handleToggleStatus "completed" (Page.handleToggleStatus "completed" prev)
  = prev.
Proof.
  intros prev. split; [reflexivity|].
  apply (toggle_twice_restores "completed" prev).
  intros [H|H]%elem_of_cons; [discriminate|]. revert H. apply not_elem_of_nil.
Defined.

(** * Cost and agreement of the scans *)

(** X20. On a healthy node whose logs decode, the forward scan and the
    reverse scan with limit ['all'] return the same events, up to their order
    and to the timestamps that the reverse scan attaches. *)
Theorem forward_and_reverse_scans_agree (cfg : Config) (client : Client)
    (clock : Z -> Z) (contractAddress networkKey : string)
    (merchantAddress : option string) (currentHeight : Z)
    (chainLogs : list RawLog) (decoded : list TransactionEvent) :
  getBlockNumber client = Ok currentHeight ->
  servesChain client contractAddress (receiverArgs merchantAddress) chainLogs ->
  mapM (decodeEvent (NETWORKS cfg networkKey))
    (logsInRange chainLogs (deploymentStart cfg networkKey) currentHeight)
  = Ok decoded ->
  exists forward reverse,
    fetchEventsFromNetwork cfg client contractAddress networkKey merchantAddress
    = Ok forward /\
    fetchEventsFromNetworkReverse cfg client clock contractAddress networkKey
      All merchantAddress = Ok reverse /\
    forward ≡ₚ map withoutTimestamp reverse /\
    length forward = length decoded.
Proof.
  intros Hheight Hserve Hdecoded.
  destruct (fetchEventsFromNetworkReverse_all cfg client clock contractAddress
              networkKey merchantAddress currentHeight chainLogs decoded
              Hheight Hserve Hdecoded) as (events & Hreverse & Hperm).
  destruct (forwardLoop_collects _ _ _ _ Hserve currentHeight
              (deploymentStart cfg networkKey) []) as (collected & Hloop & Hcollected).
  simpl in Hcollected.
  destruct (mapM_Permutation (decodeEvent (NETWORKS cfg networkKey)) collected _
              Hcollected _ Hdecoded) as (forward & Hforward & Hfperm).
  exists forward, (map (resolved client clock) events).
  split; [|split; [exact Hreverse|split]].
  - unfold fetchEventsFromNetwork, forwardScan. rewrite Hheight. simpl.
    rewrite Hloop. simpl. rewrite Hforward. reflexivity.
  - rewrite map_withoutTimestamp_resolved, Hfperm.
    rewrite <- (mapM_withoutTimestamp _ _ _ Hdecoded).
    apply Permutation_map. symmetry. exact Hperm.
  - rewrite Hfperm. reflexivity.
Qed.

(** The sample sepolia node with two purchases. *)
Lemma forward_and_reverse_scans_agree_witness :
  exists forward reverse,
    fetchEventsFromNetwork Sample.cfg (Sample.node 120000 Sample.twoPurchases)
      "0x1111" "sepolia" None = Ok forward /\
    fetchEventsFromNetworkReverse Sample.cfg
      (Sample.node 120000 Sample.twoPurchases) Sample.clock "0x1111" "sepolia"
      All None = Ok reverse /\
    forward ≡ₚ map withoutTimestamp reverse /\
    length forward = 2%nat.
Proof.
  destruct (forward_and_reverse_scans_agree Sample.cfg
              (Sample.node 120000 Sample.twoPurchases) Sample.clock "0x1111"
              "sepolia" None 120000 Sample.twoPurchases
              Sample.twoPurchasesDecoded eq_refl
              ltac:(intros fromBlock toBlock; reflexivity)
              ltac:(vm_compute; reflexivity))
    as (forward & reverse & Hf & Hr & Hperm & Hlen).
  exists forward, reverse. repeat split; assumption.
Defined.

Lemma logsInRange_length_split chainLogs a b c :
  a <= b <= c + 1 ->
  length (logsInRange chainLogs a c)
  = (length (logsInRange chainLogs b c)
     + length (logsInRange chainLogs a (b - 1)))%nat.
Proof.
  intros Hb. rewrite (logsInRange_split chainLogs a b c Hb), length_app.
  reflexivity.
Qed.

(** The requests of a reverse scan with a positive limit on a healthy node:
    they cover the blocks from some [low] up to the tip, the scan went on to
    the deployment block or collected [n] logs, and when each request was
    issued fewer than [n] logs had been collected. *)
Lemma reverseLoop_stops_when_limit_met client contractAddress args chainLogs n
    startBlock toBlock collectedEvents :
  servesChain client contractAddress args chainLogs ->
  startBlock <= toBlock + 1 ->
  Z.of_nat (length collectedEvents) < n ->
  exists low,
    startBlock <= low <= toBlock + 1 /\
    (forall b,
        timesQueried
          (reverseLoop client contractAddress args (Num n) startBlock toBlock
             collectedEvents).1 b
        = if decide (low <= b <= toBlock) then 1%nat else 0%nat) /\
    (low = startBlock
     \/ n <= Z.of_nat (length collectedEvents
                       + length (logsInRange chainLogs low toBlock))) /\
    Forall (fun q =>
              q_to q <= toBlock /\
              Z.of_nat (length collectedEvents
                        + length (logsInRange chainLogs (q_to q + 1) toBlock)) < n)
      (reverseLoop client contractAddress args (Num n) startBlock toBlock
         collectedEvents).1.
Proof.
  intros Hserve. revert toBlock collectedEvents.
  apply (reverseLoop_iter_ind client contractAddress args (Num n) startBlock
           (fun toBlock collectedEvents r =>
              startBlock <= toBlock + 1 ->
              Z.of_nat (length collectedEvents) < n ->
              exists low,
                startBlock <= low <= toBlock + 1 /\
                (forall b, timesQueried r.1 b
                           = if decide (low <= b <= toBlock) then 1%nat else 0%nat) /\
                (low = startBlock
                 \/ n <= Z.of_nat (length collectedEvents
                                   + length (logsInRange chainLogs low toBlock))) /\
                Forall (fun q =>
                          q_to q <= toBlock /\
                          Z.of_nat (length collectedEvents
                                    + length (logsInRange chainLogs (q_to q + 1)
                                                toBlock)) < n) r.1)); simpl.
  - intros toBlock acc Hlt Hle Hacc. exists startBlock.
    split; [lia|]. split; [|split; [left; reflexivity|constructor]].
    intros b. unfold timesQueried. simpl. case_decide; [lia|reflexivity].
  - intros toBlock acc err _ Hlogs. rewrite Hserve in Hlogs. discriminate.
  - intros toBlock acc logs Hle Hlogs Hbreak _ Hacc.
    rewrite Hserve in Hlogs. injection Hlogs as <-.
    exists (Z.max (toBlock - 50000) startBlock).
    split; [lia|]. split; [|split].
    + intros b. rewrite timesQueried_cons. unfold timesQueried. simpl.
      repeat case_decide; lia.
    + destruct Hbreak as [Hlimit|Hstart]; [right|left; exact Hstart].
      rewrite length_app in Hlimit.
      destruct (Z.geb_spec
                  (Z.of_nat (length acc
                             + length (logsInRange chainLogs
                                         (Z.max (toBlock - 50000) startBlock)
                                         toBlock))) n); [lia|discriminate].
    + repeat constructor; simpl; [lia|].
      rewrite logsInRange_empty by lia. simpl. lia.
  - intros toBlock acc logs rest Hle Hlogs Hlimit Hgt IH _ Hacc.
    rewrite Hserve in Hlogs. injection Hlogs as <-.
    set (fromBlock := Z.max (toBlock - 50000) startBlock) in *.
    rewrite length_app in Hlimit.
    destruct (Z.geb_spec
                (Z.of_nat (length acc
                           + length (logsInRange chainLogs fromBlock toBlock))) n)
      as [|Hbelow]; [discriminate|].
    destruct (IH ltac:(lia) ltac:(rewrite length_app; lia))
      as (low & Hlow & Hcover & Hstop & Hneeded).
    exists low. split; [lia|]. split; [|split].
    + intros b. rewrite timesQueried_cons, Hcover. simpl.
      repeat case_decide; lia.
    + destruct Hstop as [->|Hstop]; [left; reflexivity|right].
      rewrite length_app in Hstop.
      rewrite (logsInRange_length_split chainLogs low fromBlock toBlock) by lia.
      lia.
    + constructor; [simpl; split; [lia|]|].
      * rewrite logsInRange_empty by lia. simpl. lia.
      * eapply Forall_impl; [exact Hneeded|]. simpl. intros q [Hq Hcount].
        split; [lia|]. rewrite length_app in Hcount.
        rewrite (logsInRange_length_split chainLogs (q_to q + 1) fromBlock toBlock)
          by lia.
        lia.
Qed.

(** X21. On a healthy node a reverse scan with a limit [n > 0] stops as
    soon as it can: its requests cover the blocks from some [low] up to the
    height and no other block, it went down to the deployment block or the
    blocks it covered hold at least [n] logs, and when each of its requests
    was issued the blocks above it held fewer than [n] logs. *)
Theorem reverse_scan_stops_as_soon_as_limit_is_met (cfg : Config)
    (client : Client) (clock : Z -> Z) (contractAddress networkKey : string)
    (n : Z) (merchantAddress : option string) (currentHeight : Z)
    (chainLogs : list RawLog) :
  getBlockNumber client = Ok currentHeight ->
  servesChain client contractAddress (receiverArgs merchantAddress) chainLogs ->
  deploymentStart cfg networkKey <= currentHeight ->
  0 < n ->
  let requests :=
    (reverseScan cfg client clock contractAddress networkKey (Num n)
       merchantAddress).1 in
  exists low,
    deploymentStart cfg networkKey <= low <= currentHeight /\
    (forall b, timesQueried requests b
               = if decide (low <= b <= currentHeight) then 1%nat else 0%nat) /\
    (low = deploymentStart cfg networkKey
     \/ n <= Z.of_nat (length (logsInRange chainLogs low currentHeight))) /\
    Forall (fun q =>
              Z.of_nat (length (logsInRange chainLogs (q_to q + 1) currentHeight))
              < n) requests.
Proof.
  intros Hheight Hserve Hle Hn requests. subst requests.
  unfold reverseScan. rewrite Hheight. simpl.
  destruct (reverseLoop_stops_when_limit_met client contractAddress
              (receiverArgs merchantAddress) chainLogs n
              (deploymentStart cfg networkKey) currentHeight [] Hserve
              ltac:(lia) ltac:(simpl; lia))
    as (low & Hlow & Hcover & Hstop & Hneeded).
  simpl in Hstop.
  assert (Hlow' : low <= currentHeight).
  { destruct (decide (low <= currentHeight)) as [|Hgt]; [assumption|].
    specialize (Hcover currentHeight). revert Hcover.
    rewrite reverseLoop_while, decide_True by lia. cbv zeta.
    rewrite reverseFromBlock_max, Hserve. simpl.
    rewrite decide_False by lia.
    destruct (_ >=? _); simpl;
      [|destruct (_ <=? _); simpl]; rewrite timesQueried_cons; simpl;
      rewrite decide_True by lia; lia. }
  exists low. split; [lia|]. split; [exact Hcover|]. split; [exact Hstop|].
  eapply Forall_impl; [exact Hneeded|]. simpl. intros q [_ Hq]. exact Hq.
Qed.

(** Seven purchases and a limit of four: the chunk at the tip holds three
    logs, so a second chunk is requested; it brings the count to six and the
    scan stops there, above the deployment block. *)
Lemma reverse_scan_stops_as_soon_as_limit_is_met_witness :
  (reverseScan Sample.cfg (Sample.node 120000 Fixtures.sevenPurchases)
     Sample.clock "0x1111" "sepolia" (Num 4) None).1
  = [Build_Query 70000 120000; Build_Query 19999 69999] /\
  exists low,
    1000 <= low <= 120000 /\
    (forall b,
        timesQueried
          (reverseScan Sample.cfg (Sample.node 120000 Fixtures.sevenPurchases)
             Sample.clock "0x1111" "sepolia" (Num 4) None).1 b
        = if decide (low <= b <= 120000) then 1%nat else 0%nat).
Proof.
  split; [vm_compute; reflexivity|].
  destruct (reverse_scan_stops_as_soon_as_limit_is_met Sample.cfg
              (Sample.node 120000 Fixtures.sevenPurchases) Sample.clock "0x1111"
              "sepolia" 4 None 120000 Fixtures.sevenPurchases eq_refl
              ltac:(intros fromBlock toBlock; reflexivity)
              ltac:(vm_compute; discriminate) ltac:(lia))
    as (low & Hlow & Hcover & _).
  exists low. split; [exact Hlow|exact Hcover].
Defined.

(** * The number of requests of a complete scan *)

Lemma forwardLoop_request_count client contractAddress args chainLogs
    currentBlock fromBlock allEvents :
  servesChain client contractAddress args chainLogs ->
  Z.of_nat (length (forwardLoop client contractAddress args currentBlock
                      fromBlock allEvents).1)
  = (Z.max 0 (currentBlock + 1 - fromBlock) + 49999) / 50000.
Proof.
  intros Hserve. revert fromBlock allEvents.
  apply (forwardLoop_iter_ind client contractAddress args currentBlock
           (fun fromBlock _ r =>
              Z.of_nat (length r.1)
              = (Z.max 0 (currentBlock + 1 - fromBlock) + 49999) / 50000)); simpl.
  - intros fromBlock _ Hlt. rewrite Z.max_l by lia. reflexivity.
  - intros fromBlock _ err _ Hlogs. rewrite Hserve in Hlogs. discriminate.
  - intros fromBlock _ logs rest Hle _ IH.
    rewrite Nat2Z.inj_succ, IH.
    destruct (Z.le_gt_cases currentBlock (fromBlock + 49999)) as [Hlast|Hmore].
    + rewrite Z.min_r, (Z.max_l 0), (Z.max_r 0) by lia.
      change ((0 + 49999) / 50000) with 0.
      apply (Z.div_unique_pos _ _ _ (currentBlock - fromBlock)); lia.
    + rewrite Z.min_l, !(Z.max_r 0) by lia.
      replace (currentBlock + 1 - fromBlock + 49999)
        with (currentBlock + 1 - (fromBlock + 49999 + 1) + 49999 + 1 * 50000)
        by lia.
      rewrite Z.div_add by lia. lia.
Qed.

Lemma reverseLoop_request_count client contractAddress args chainLogs
    startBlock toBlock collectedEvents :
  servesChain client contractAddress args chainLogs ->
  Z.of_nat (length (reverseLoop client contractAddress args All startBlock
                      toBlock collectedEvents).1)
  = (Z.max 0 (toBlock + 1 - startBlock) + 50000) / 50001.
Proof.
  intros Hserve. revert toBlock collectedEvents.
  apply (reverseLoop_iter_ind client contractAddress args All startBlock
           (fun toBlock _ r =>
              Z.of_nat (length r.1)
              = (Z.max 0 (toBlock + 1 - startBlock) + 50000) / 50001)); simpl.
  - intros toBlock _ Hlt. rewrite Z.max_l by lia. reflexivity.
  - intros toBlock _ err _ Hlogs. rewrite Hserve in Hlogs. discriminate.
  - intros toBlock _ logs Hle _ [Hlimit|Hstart]; [discriminate|].
    rewrite Z.max_r by lia.
    apply (Z.div_unique_pos _ _ _ (toBlock - startBlock)); lia.
  - intros toBlock _ logs rest Hle _ _ Hgt IH.
    rewrite Nat2Z.inj_succ, IH.
    rewrite (Z.max_l (toBlock - 50000)), !(Z.max_r 0) by lia.
    replace (toBlock + 1 - startBlock + 50000)
      with (toBlock - 50000 - 1 + 1 - startBlock + 50000 + 1 * 50001) by lia.
    rewrite Z.div_add by lia. lia.
Qed.

(** X22. On a node that answers every request, a forward scan of [m] blocks
    issues [m / 50000] requests, rounded up, and a reverse scan with limit
    ['all'] issues [m / 50001] requests, rounded up, [m] being the number of
    blocks from the deployment block to the height; so the reverse scan
    never issues more requests than the forward scan. *)
Theorem complete_scan_request_counts (cfg : Config) (client : Client)
    (clock : Z -> Z) (contractAddress networkKey : string)
    (merchantAddress : option string) (currentHeight : Z)
    (chainLogs : list RawLog) :
  getBlockNumber client = Ok currentHeight ->
  servesChain client contractAddress (receiverArgs merchantAddress) chainLogs ->
  let m := Z.max 0 (currentHeight + 1 - deploymentStart cfg networkKey) in
  let forward :=
    (forwardScan cfg client contractAddress networkKey merchantAddress).1 in
  let reverse :=
    (reverseScan cfg client clock contractAddress networkKey All
       merchantAddress).1 in
  Z.of_nat (length forward) = (m + 49999) / 50000 /\
  Z.of_nat (length reverse) = (m + 50000) / 50001 /\
  (length reverse <= length forward)%nat.
Proof.
  intros Hheight Hserve m forward reverse.
  assert (Hforward : Z.of_nat (length forward) = (m + 49999) / 50000).
  { subst forward m. unfold forwardScan. rewrite Hheight. simpl.
    apply (forwardLoop_request_count _ _ _ chainLogs). exact Hserve. }
  assert (Hreverse : Z.of_nat (length reverse) = (m + 50000) / 50001).
  { subst reverse m. unfold reverseScan. rewrite Hheight. simpl.
    apply (reverseLoop_request_count _ _ _ chainLogs). exact Hserve. }
  split; [exact Hforward|]. split; [exact Hreverse|].
  apply Nat2Z.inj_le. rewrite Hforward, Hreverse.
  assert (Hm : 0 <= m) by (subst m; lia).
  pose proof (Z.div_mod (m + 50000) 50001 ltac:(lia)) as Hr.
  pose proof (Z.mod_pos_bound (m + 50000) 50001 ltac:(lia)) as Hrb.
  pose proof (Z.div_mod (m + 49999) 50000 ltac:(lia)) as Hf.
  pose proof (Z.mod_pos_bound (m + 49999) 50000 ltac:(lia)) as Hfb.
  nia.
Qed.

(** The mordor contract of the sample configuration, deployed at block 0, on
    a node at height 100000: 100001 blocks, three forward requests and two
    reverse ones. *)
Lemma complete_scan_request_counts_witness :
  let client := Sample.node 100000 [] in
  length (forwardScan Sample.cfg client "0x3333" "mordor" None).1 = 3%nat /\
  length (reverseScan Sample.cfg client Sample.clock "0x3333" "mordor" All
            None).1 = 2%nat.
Proof.
  intros client.
  destruct (complete_scan_request_counts Sample.cfg client Sample.clock "0x3333"
              "mordor" None 100000 [] eq_refl
              ltac:(intros fromBlock toBlock; reflexivity))
    as (Hforward & Hreverse & _).
  split; apply Nat2Z.inj; [rewrite Hforward|rewrite Hreverse]; reflexivity.
Defined.
